(** * crossCalib: transfer function of a broadband seismometer

    A shallow embedding of [crossCalib.py] (functions [whiteCalib],
    [crossCalib] and [Hparameters]) and the properties of it that the
    specification states.

    Conventions of the embedding.
    - A Python/NumPy float is an exact rational ([Qc]): every finite float
      is one.  The arithmetic of [whiteCalib] is taken without rounding,
      and a theorem states a value only where rounding leaves the outcome
      (return or raise, exception, printed lines) as it is.
    - The arithmetic of [Hparameters] is the machine's, through the
      interface: the subtractions, whose rounding moves an [argmin], are
      [fsub]; the modulus, the quotients and the product, which can be
      [inf] or [nan], are [cabs], [fdiv] and [fmul] on [xfloat]s.
    - The complex quotient of two spectra has no [inf] and no [nan]: at a
      zero bin it is the field's [x / 0 = 0], and a theorem that states
      the values of [H] says that the monitor spectrum has no zero bin.
    - A complex number is a pair of rationals.
    - A Python exception is an [outcome] that is [Raise e].
    - Trace objects live in a store ([heap]) and are passed by reference;
      [print] appends a line to [stdout].
    - What the file imports from NumPy, SciPy and ObsPy and cannot be
      written with rationals (the Fourier transform, the complex modulus,
      the smoothing window, the highpass filter and the removal of an
      instrument response, the last two with their failures) is the
      interface [SignalLib]. *)

From Stdlib Require Import ZArith QArith Qcanon Lqa.
From Stdlib Require Qcabs.
From stdpp Require Import base numbers list gmap strings.

(** ** Numbers *)

Definition of_Z (k : Z) : Qc := Q2Qc (inject_Z k).
Definition of_nat (n : nat) : Qc := of_Z (Z.of_nat n).
Definition frac (n : Z) (d : positive) : Qc := Q2Qc (n # d).

Record complex : Type := Complex { re : Qc; im : Qc }.

Global Instance complex_eq_dec : EqDecision complex.
Proof. solve_decision. Defined.

Definition of_real (x : Qc) : complex := Complex x 0.


(** [z / w] on complex numbers. *)
Definition cdiv (z w : complex) : complex :=
  let d := (re w * re w + im w * im w)%Qc in
  Complex ((re z * re w + im z * im w) / d) ((im z * re w - re z * im w) / d).

(** ** Exceptions *)

Inductive exn : Type :=
  | ValueError
  | ZeroDivisionError
  | IndexError
  | ReferenceError.

Global Instance exn_eq_dec : EqDecision exn.
Proof. solve_decision. Defined.

Inductive outcome (A : Type) : Type :=
  | Return (a : A)
  | Raise (e : exn).
Arguments Return {A} a.
Arguments Raise {A} e.

Global Instance outcome_eq_dec {A} `{EqDecision A} : EqDecision (outcome A).
Proof. solve_decision. Defined.

Global Instance outcome_ret : MRet outcome := @Return.
Global Instance outcome_bind : MBind outcome := λ A B k m,
  match m with
  | Return a => k a
  | Raise e => Raise e
  end.

(** ** The numerical libraries *)

Record Trace : Type := MkTrace { data : list Qc; sampling_rate : Qc }.

Global Instance Trace_eq_dec : EqDecision Trace.
Proof. solve_decision. Defined.

(** A poles and zeros model, as ObsPy's [paz] dictionary. *)
Record PolesZeros : Type := MkPaz {
  poles : list complex;
  zeros : list complex;
  gain : Qc;
  sensitivity : Qc
}.

(** A float64 as NumPy has it: a number, [inf] or [nan] (the signs of
    [inf] and of zero play no part below). *)
Inductive xfloat : Type :=
  | Fin (q : Qc)
  | Inf
  | NaN.

Global Instance xfloat_eq_dec : EqDecision xfloat.
Proof. solve_decision. Defined.

Class SignalLib : Type := {
  (** [np.fft.fft] on a sequence that is not empty *)
  fft : list Qc → list complex;
  fft_length : ∀ x, length (fft x) = length x;
  (** [np.absolute] on one complex number *)
  cabs : complex → xfloat;
  (** what [obspy.signal.util.smooth] returns, when it returns (see
      [obspy_smooth]) *)
  smooth : list complex → Z → list complex;
  smooth_length : ∀ x n, length (smooth x n) = length x;
  (** [Trace.filter('highpass', freq=.., corners=4, zerophase=True)]: the
      filtered trace, or the exception it raises (a corner frequency at
      or above Nyquist is a [ValueError]) *)
  highpass : Qc → Trace → outcome Trace;
  (** [Trace.simulate(paz_remove=.., taper=False, zero_mean=False)]: the
      deconvolved trace, or the exception it raises *)
  simulate : PolesZeros → Trace → outcome Trace;
  (** [x - y] on two floats: the difference, rounded *)
  fsub : Qc → Qc → Qc;
  (** [x / y] and [x * y] on NumPy floats, which raise nothing: rounded,
      [inf] or [nan] *)
  fdiv : xfloat → xfloat → xfloat;
  fmul : xfloat → xfloat → xfloat
}.

(** ** NumPy on one-dimensional arrays *)

Definition np_absolute (x : list Qc) : list Qc := map Qcabs.Qcabs x.

Definition np_real (x : list complex) : list Qc := map re x.

Definition np_sum (x : list Qc) : Qc := foldr Qcplus 0%Qc x.

(** [x - y] on arrays of one length. *)
Definition np_subtract (x y : list Qc) : list Qc := zip_with Qcminus x y.

(** [np.amax]: the largest element; [ValueError] on an empty array. *)
Definition np_amax (x : list Qc) : outcome Qc :=
  match x with
  | [] => Raise ValueError
  | a :: x' => Return (foldl (λ m b, if bool_decide (m < b)%Qc then b else m) a x')
  end.

(** [np.minimum] on two scalars. *)
Definition np_minimum (a b : Qc) : Qc :=
  if bool_decide (b < a)%Qc then b else a.

(** [np.argmin] and [np.argmax]: the first index of the least (largest)
    element; [ValueError] on an empty array.  [argbest_from better best
    ibest i l] scans [l], whose first element has index [i], knowing that
    the best element so far is [best], at index [ibest]. *)
Fixpoint argbest_from (better : Qc → Qc → bool) (best : Qc) (ibest i : nat)
    (l : list Qc) : nat :=
  match l with
  | [] => ibest
  | x :: l' =>
      if better x best then argbest_from better x i (S i) l'
      else argbest_from better best ibest (S i) l'
  end.

Definition np_argmin (x : list Qc) : outcome nat :=
  match x with
  | [] => Raise ValueError
  | a :: x' => Return (argbest_from (λ u v, bool_decide (u < v)%Qc) a 0 1 x')
  end.

Definition np_argmax (x : list Qc) : outcome nat :=
  match x with
  | [] => Raise ValueError
  | a :: x' => Return (argbest_from (λ u v, bool_decide (v < u)%Qc) a 0 1 x')
  end.

(** [np.delete(x, i)] for an index [i >= 0]. *)
Definition np_delete {A} (x : list A) (i : nat) : outcome (list A) :=
  if bool_decide (i < length x) then Return (delete i x) else Raise IndexError.

(** [np.where(mask)]: the indices at which [mask] holds. *)
Definition np_where (mask : list bool) : list nat :=
  filter (λ i, mask !! i = Some true) (seq 0 (length mask)).

(** [x[i]] for an index [i >= 0]. *)
Definition getitem {A} (x : list A) (i : nat) : outcome A :=
  match x !! i with
  | Some a => Return a
  | None => Raise IndexError
  end.

(** [x[idx]] for an array of indices. *)
Fixpoint take_indices {A} (x : list A) (idx : list nat) : outcome (list A) :=
  match idx with
  | [] => Return []
  | i :: idx' =>
      a ← getitem x i;
      r ← take_indices x idx';
      Return (a :: r)
  end.

(** [x[lo:hi]] for bounds [lo, hi >= 0]. *)
Definition slice {A} (x : list A) (lo hi : nat) : list A :=
  take (hi - lo) (drop lo x).

(** [x / y] on complex arrays, with NumPy's broadcasting: the shapes must
    be equal, or one of them is [(1,)]. *)
Definition np_divide (x y : list complex) : outcome (list complex) :=
  if bool_decide (length x = length y) then Return (zip_with cdiv x y)
  else match x, y with
       | [a], _ => Return (map (cdiv a) y)
       | _, [b] => Return (map (λ a, cdiv a b) x)
       | _, _ => Raise ValueError
       end.

(** The integer bins of [np.fft.fftfreq(n)]: [0, 1, ..., (n-1)//2,
    -(n//2), ..., -1]. *)
Definition fftfreq_bins (n : nat) : list Z :=
  let N := Z.to_nat ((Z.of_nat n - 1) `div` 2 + 1) in
  map Z.of_nat (seq 0 N)
  ++ map (λ k, (Z.of_nat k - Z.of_nat (n `div` 2))%Z) (seq 0 (n `div` 2)).

(** [np.fft.fftfreq(n, d)]: [val = 1.0 / (n * d)] and the bins times
    [val]. *)
Definition np_fftfreq (n : nat) (d : Qc) : outcome (list Qc) :=
  if bool_decide ((of_nat n * d)%Qc = 0%Qc) then Raise ZeroDivisionError
  else
    let val := (1 / (of_nat n * d))%Qc in
    Return (map (λ k, (of_Z k * val)%Qc) (fftfreq_bins n)).

(** [a / b] on Python floats. *)
Definition truediv (a b : Qc) : outcome Qc :=
  if bool_decide (b = 0%Qc) then Raise ZeroDivisionError else Return (a / b)%Qc.

Section WithLib.
Context {L : SignalLib}.

(** [np.fft.fft]: [ValueError] on no data point. *)
Definition np_fft (x : list Qc) : outcome (list complex) :=
  match x with
  | [] => Raise ValueError
  | _ => Return (fft x)
  end.

Definition np_absolute_c (x : list complex) : list xfloat := map cabs x.

(** [obspy.signal.util.smooth(x, smoothie)] on a one-dimensional array:
    [x] itself for [smoothie <= 0]; for a positive [smoothie] the ends are
    overwritten from [out[smoothie]], an [IndexError] when [smoothie] is
    not below [len(x)] (and [x[0]] is one on an empty [x]). *)
Definition obspy_smooth (x : list complex) (smoothie : Z) : outcome (list complex) :=
  if bool_decide (0 < smoothie ∧ Z.of_nat (length x) ≤ smoothie)%Z
  then Raise IndexError
  else Return (smooth x smoothie).

(** ** Python objects and effects

    A trace object is a cell of the store; [Trace.copy] is a deep copy (a
    new cell with the same contents), [Trace.filter] and [Trace.simulate]
    change their cell in place. *)

Record world : Type := World { heap : gmap nat Trace; stdout : list string }.

Definition py (A : Type) : Type := world → outcome A * world.

Definition ret {A} (a : A) : py A := λ w, (Return a, w).

Global Instance py_ret : MRet py := @ret.
Global Instance py_bind : MBind py := λ A B k m w,
  match m w with
  | (Return a, w') => k a w'
  | (Raise e, w') => (Raise e, w')
  end.

(** A computation of NumPy's, which touches neither the store nor the
    output. *)
Definition lift {A} (o : outcome A) : py A := λ w, (o, w).

Definition print (s : string) : py () := λ w,
  (Return (), World (heap w) (stdout w ++ [s])).

(** The attributes of the trace object at [t]. *)
Definition load (t : nat) : py Trace := λ w,
  match heap w !! t with
  | Some tr => (Return tr, w)
  | None => (Raise ReferenceError, w)
  end.

Definition Trace_copy (t : nat) : py nat := λ w,
  match heap w !! t with
  | Some tr =>
      let t' := fresh (dom (heap w)) in
      (Return t', World (<[t' := tr]> (heap w)) (stdout w))
  | None => (Raise ReferenceError, w)
  end.

Definition Trace_filter (t : nat) (freq : Qc) : py () := λ w,
  match heap w !! t with
  | Some tr =>
      match highpass freq tr with
      | Return tr' => (Return (), World (<[t := tr']> (heap w)) (stdout w))
      | Raise e => (Raise e, w)
      end
  | None => (Raise ReferenceError, w)
  end.

Definition Trace_simulate (t : nat) (paz_remove : PolesZeros) : py () := λ w,
  match heap w !! t with
  | Some tr =>
      match simulate paz_remove tr with
      | Return tr' => (Return (), World (<[t := tr']> (heap w)) (stdout w))
      | Raise e => (Raise e, w)
      end
  | None => (Raise ReferenceError, w)
  end.

(** The keyword arguments the three functions read; a key that is absent
    is [None]. *)
Record Kwargs : Type := MkKwargs {
  kw_smooth : option Z;
  kw_ffilter : option Qc;
  kw_deconvolve : option bool;
  kw_paz : option PolesZeros;
  kw_fnorm : option Qc;
  kw_fmin : option Qc;
  kw_plotting : option bool
}.

Definition no_kwargs : Kwargs := MkKwargs None None None None None None None.

Definition only_smooth (s : Z) : Kwargs :=
  MkKwargs (Some s) None None None None None None.

(** ** whiteCalib *)

Definition mismatch_warning : string :=
  "Warning: frequencies arrays does'nt have same length or frequencies arrays not strictly identical, mixing".

(** [len(f1)-len(f2) != 0 or np.sum(f1-f2)!=0]; the sum is evaluated only
    when the lengths are equal. *)
Definition mismatch (f1 f2 : list Qc) : bool :=
  if negb (bool_decide ((Z.of_nat (length f1) - Z.of_nat (length f2))%Z = 0%Z))
  then true
  else negb (bool_decide (np_sum (np_subtract f1 f2) = 0%Qc)).

(** Lines 61 to 66 (and 68 to 73, on the other pair): the element at the
    largest frequency is deleted, then the one at the least frequency. *)
Definition trim_ends (f : list Qc) (Spectre : list complex)
    : outcome (list Qc * list complex) :=
  i ← np_argmax f;
  f ← np_delete f i;
  Spectre ← np_delete Spectre i;
  i ← np_argmin f;
  f ← np_delete f i;
  Spectre ← np_delete Spectre i;
  Return (f, Spectre).

(** [|f| < fmax] kept in an axis and in its spectrum. *)
Definition below (fmax : Qc) (f : list Qc) : list nat :=
  np_where (map (λ x, bool_decide (x < fmax)%Qc) (np_absolute f)).

(** Lines 50 to 73: the alignment of the two frequency axes. *)
Definition align (f1 : list Qc) (mSpectre : list complex)
    (f2 : list Qc) (rSpectre : list complex)
    : py (list Qc * list complex * list Qc * list complex) :=
  if mismatch f1 f2 then
    print mismatch_warning;;
    a1 ← lift (np_amax (np_absolute f1));
    a2 ← lift (np_amax (np_absolute f2));
    let fmax := np_minimum a1 a2 in
    let i1 := below fmax f1 in
    f1 ← lift (take_indices f1 i1);
    mSpectre ← lift (take_indices mSpectre i1);
    let i2 := below fmax f2 in
    f2 ← lift (take_indices f2 i2);
    rSpectre ← lift (take_indices rSpectre i2);
    if bool_decide (length f2 < length f1) then
      '(f1, mSpectre) ← lift (trim_ends f1 mSpectre);
      ret (f1, mSpectre, f2, rSpectre)
    else if bool_decide (length f1 < length f2) then
      '(f2, rSpectre) ← lift (trim_ends f2 rSpectre);
      ret (f1, mSpectre, f2, rSpectre)
    else ret (f1, mSpectre, f2, rSpectre)
  else ret (f1, mSpectre, f2, rSpectre).

(** The window of the final smoothing: [kwargs['smooth']], or
    [int(len(f1)*0.0001)]. *)
Definition smooth_window (kwargs : Kwargs) (f1 : list Qc) : Z :=
  match kw_smooth kwargs with
  | Some s => s
  | None => (Z.of_nat (length f1) `div` 10000)%Z
  end.

(** Lines 43 to 83, on the attributes of the two copies. *)
Definition transfer_function (m r : Trace) (kwargs : Kwargs)
    : py (list complex * list Qc) :=
  mSpectre ← lift (np_fft (data m));
  rSpectre ← lift (np_fft (data r));
  d1 ← lift (truediv 1 (sampling_rate m));
  f1 ← lift (np_fftfreq (length mSpectre) d1);
  d2 ← lift (truediv 1 (sampling_rate r));
  f2 ← lift (np_fftfreq (length rSpectre) d2);
  '(f1, mSpectre, f2, rSpectre) ← align f1 mSpectre f2 rSpectre;
  H ← lift (np_divide rSpectre mSpectre);
  H ← lift (obspy_smooth H (smooth_window kwargs f1));
  ret (H, f1).

Definition whiteCalib (monitor_trace response_trace : nat) (kwargs : Kwargs)
    : py (list complex * list Qc) :=
  m_trace ← Trace_copy monitor_trace;
  r_trace ← Trace_copy response_trace;
  m ← load m_trace;
  r ← load r_trace;
  transfer_function m r kwargs.

(** ** crossCalib *)

Definition no_paz_error : string := "Error: No paz for deconvolution".

Definition crossCalib (monitor_trace response_trace : nat) (kwargs : Kwargs)
    : py (list complex * list Qc) :=
  in_trace ← Trace_copy monitor_trace;
  out_trace ← Trace_copy response_trace;
  match kw_ffilter kwargs with
  | Some freq => Trace_filter in_trace freq;; Trace_filter out_trace freq
  | None => ret ()
  end;;
  match kw_deconvolve kwargs with
  | Some true =>
      match kw_paz kwargs with
      | Some paz => Trace_simulate in_trace paz
      | None => print no_paz_error
      end
  | _ => ret ()
  end;;
  '(H, f) ← match kw_smooth kwargs with
            | Some s => whiteCalib in_trace out_trace (only_smooth s)
            | None => whiteCalib in_trace out_trace no_kwargs
            end;
  ret (H, f).

(** ** Hparameters

    The figure drawn when [plotting] is set changes neither the values
    nor the result and is left out. *)

Definition Hparameters (H : list complex) (f : list Qc) (kwargs : Kwargs)
    : outcome (Qc * xfloat * xfloat) :=
  inorm ← match kw_fnorm kwargs with
          | Some fnorm => np_argmin (np_absolute (map (λ x, fsub x fnorm) f))
          | None => np_argmin (np_absolute (map (λ x, fsub x 1) f))
          end;
  imin ← match kw_fmin kwargs with
         | Some fmin => np_argmin (np_absolute (map (λ x, fsub x fmin) f))
         | None => np_argmin (np_absolute (map (λ x, fsub x (frac 1 1000)) f))
         end;
  indx ← np_argmin (np_absolute (np_real (slice H imin inorm)));
  let indx := indx + imin in
  Hnorm ← getitem H inorm;
  let Amp := map (λ a, fdiv a (cabs Hnorm)) (np_absolute_c H) in
  fc ← getitem f indx;
  Ac ← getitem Amp indx;
  Hnorm ← getitem H inorm;
  Return (fc, fdiv (Fin 1) (fmul (Fin 2) Ac), cabs Hnorm).

End WithLib.

(** ** An implementation of the interface

    Used to evaluate the functions on concrete traces.  The transform is
    the discrete Fourier transform for one, two and four points, whose
    twiddle factors are rational (on other lengths it keeps the samples,
    and only the number of bins matters below); the modulus is rounded
    down to a multiple of the denominator's inverse; the smoothing is a
    centred mean over a window cut at the ends; the filter takes the mean
    off and raises at or above Nyquist; the subtraction, the quotient and
    the product do not round, and the last two follow IEEE 754 at 0,
    [inf] and [nan]. *)

Definition cadd (z w : complex) : complex := Complex (re z + re w) (im z + im w).

Definition dft (x : list Qc) : list complex :=
  match x with
  | [a; b] => [of_real (a + b); of_real (a - b)]
  | [a; b; c; d] =>
      [of_real (a + b + c + d); Complex (a - c) (d - b);
       of_real (a - b + c - d); Complex (a - c) (b - d)]
  | _ => map of_real x
  end.

Definition modulus (z : complex) : xfloat :=
  let q := this (re z * re z + im z * im z)%Qc in
  Fin (Q2Qc (Z.sqrt (Qnum q * Z.pos (Qden q)) # Qden q)).

Definition float_div (a b : xfloat) : xfloat :=
  match a, b with
  | NaN, _ | _, NaN => NaN
  | Inf, Inf => NaN
  | Inf, Fin _ => Inf
  | Fin _, Inf => Fin 0
  | Fin x, Fin y =>
      if bool_decide (y = 0%Qc) then (if bool_decide (x = 0%Qc) then NaN else Inf)
      else Fin (x / y)
  end.

Definition float_mul (a b : xfloat) : xfloat :=
  match a, b with
  | NaN, _ | _, NaN => NaN
  | Inf, Inf => Inf
  | Inf, Fin y | Fin y, Inf => if bool_decide (y = 0%Qc) then NaN else Inf
  | Fin x, Fin y => Fin (x * y)
  end.

Definition cmean (x : list complex) : complex :=
  let s := foldr cadd (Complex 0 0) x in
  Complex (re s / of_nat (length x)) (im s / of_nat (length x)).

Definition moving_mean (x : list complex) (n : Z) : list complex :=
  if bool_decide (n ≤ 0)%Z then x
  else imap (λ i _, cmean (slice x (i - Z.to_nat n) (i + Z.to_nat n + 1))) x.

Definition demean (freq : Qc) (tr : Trace) : outcome Trace :=
  if bool_decide (sampling_rate tr <= 2 * freq)%Qc then Raise ValueError
  else
    let mu := (np_sum (data tr) / of_nat (length (data tr)))%Qc in
    Return (MkTrace (map (λ x, (x - mu)%Qc) (data tr)) (sampling_rate tr)).

Definition remove_gain (paz : PolesZeros) (tr : Trace) : outcome Trace :=
  Return (MkTrace (map (λ x, (x / sensitivity paz)%Qc) (data tr))
                  (sampling_rate tr)).

Definition sample_lib : SignalLib.
Proof.
  refine {| fft := dft; cabs := modulus; smooth := moving_mean;
            highpass := demean; simulate := remove_gain; fsub := Qcminus;
            fdiv := float_div; fmul := float_mul |}.
  - intros x. destruct x as [|a [|b [|c [|d [|e x]]]]]; try reflexivity.
    unfold dft. by rewrite length_map.
  - intros x n. unfold moving_mean. case_bool_decide; [done | apply length_imap].
Defined.

(** A store with the monitor trace at 0 and the response trace at 1, and
    a trace of [n] samples 1, 2, ..., [n]. *)
Definition two_traces (m r : Trace) : world :=
  World (<[1 := r]> (<[0 := m]> ∅)) [].

Definition ramp (n : nat) (sr : Qc) : Trace := MkTrace (map of_nat (seq 1 n)) sr.

(** ** Predicates of the specification *)

(** [i] is the first index of a least element of [l]. *)
Definition first_argmin (l : list Qc) (i : nat) : Prop :=
  ∃ v, l !! i = Some v
    ∧ (∀ j u, l !! j = Some u → (v <= u)%Qc)
    ∧ (∀ j u, j < i → l !! j = Some u → (v < u)%Qc).

(** [i] is the index of the bin of [f] closest to [x]: the first at
    which the computed difference [|f - x|] is least. *)
Definition closest_bin {L : SignalLib} (f : list Qc) (x : Qc) (i : nat) : Prop :=
  first_argmin (map (λ y, Qcabs.Qcabs (fsub y x)) f) i.

(** The normalization and the minimum search frequency of a call: the
    option, or 1 Hz and 0.001 Hz. *)
Definition fnorm_of (kwargs : Kwargs) : Qc := default 1%Qc (kw_fnorm kwargs).
Definition fmin_of (kwargs : Kwargs) : Qc := default (frac 1 1000) (kw_fmin kwargs).

(** [indx] is the first index of the window [lo, hi) at which [|Re(H)|]
    is least over the window. *)
Definition window_argmin (H : list complex) (lo hi indx : nat) : Prop :=
  lo ≤ indx < hi
  ∧ ∃ z, H !! indx = Some z
    ∧ (∀ j u, lo ≤ j < hi → H !! j = Some u →
              (Qcabs.Qcabs (re z) <= Qcabs.Qcabs (re u))%Qc)
    ∧ (∀ j u, lo ≤ j < indx → H !! j = Some u →
              (Qcabs.Qcabs (re z) < Qcabs.Qcabs (re u))%Qc).

(** The frequency axis of a trace: [np.fft.fftfreq(len(data),
    d=1./sampling_rate)]. *)
Definition axis (t : Trace) : outcome (list Qc) :=
  d ← truediv 1 (sampling_rate t);
  np_fftfreq (length (data t)) d.

Definition empty_world : world := World ∅ [].

(** A computation that leaves the store alone, appends its lines to the
    output and whose result depends on neither. *)
Definition pure_io {A} (c : py A) : Prop :=
  ∀ w, c w = (fst (c empty_world),
              World (heap w) (stdout w ++ stdout (snd (c empty_world)))).

(** The trace that [crossCalib] hands to [whiteCalib] when nothing is
    deconvolved: filtered if [ffilter] is given (or the exception of the
    filter); and the keyword arguments that it forwards. *)
Definition filtered {L : SignalLib} (kwargs : Kwargs) (t : Trace)
    : outcome Trace :=
  match kw_ffilter kwargs with
  | Some freq => highpass freq t
  | None => Return t
  end.

Definition forwarded (kwargs : Kwargs) : Kwargs :=
  match kw_smooth kwargs with
  | Some s => only_smooth s
  | None => no_kwargs
  end.

(** The cells of [h0] keep their contents through [c]. *)
Definition preserves {A} (h0 : gmap nat Trace) (c : py A) : Prop :=
  ∀ w, h0 ⊆ heap w → h0 ⊆ heap (snd (c w)).

(** The store after the two copies that [whiteCalib] makes at entry. *)
Definition after_copies (m r : Trace) (h : gmap nat Trace) : gmap nat Trace :=
  let h1 := <[fresh (dom h) := m]> h in
  <[fresh (dom h1) := r]> h1.

(** Lines 52 to 73 as a value: the mismatch branch of [align] without
    its print.  [align_value] relates the two. *)
Definition reconcile (f1 : list Qc) (mSpectre : list complex)
    (f2 : list Qc) (rSpectre : list complex)
    : outcome (list Qc * list complex * list Qc * list complex) :=
  a1 ← np_amax (np_absolute f1);
  a2 ← np_amax (np_absolute f2);
  let fmax := np_minimum a1 a2 in
  let i1 := below fmax f1 in
  f1 ← take_indices f1 i1;
  mSpectre ← take_indices mSpectre i1;
  let i2 := below fmax f2 in
  f2 ← take_indices f2 i2;
  rSpectre ← take_indices rSpectre i2;
  if bool_decide (length f2 < length f1) then
    '(f1, mSpectre) ← trim_ends f1 mSpectre;
    Return (f1, mSpectre, f2, rSpectre)
  else if bool_decide (length f1 < length f2) then
    '(f2, rSpectre) ← trim_ends f2 rSpectre;
    Return (f1, mSpectre, f2, rSpectre)
  else Return (f1, mSpectre, f2, rSpectre).

(** What [align] returns or raises, and what it prints. *)
Definition aligned (f1 : list Qc) (mSpectre : list complex)
    (f2 : list Qc) (rSpectre : list complex)
    : outcome (list Qc * list complex * list Qc * list complex) :=
  if mismatch f1 f2 then reconcile f1 mSpectre f2 rSpectre
  else Return (f1, mSpectre, f2, rSpectre).

Definition align_lines (f1 f2 : list Qc) : list string :=
  if mismatch f1 f2 then [mismatch_warning] else [].

(** Lines 50 to 83 as a value: what [whiteCalib] returns or raises once
    the two spectra and the two axes are there. *)
Definition transfer_value {L : SignalLib} (kwargs : Kwargs)
    (f1 : list Qc) (mSpectre : list complex)
    (f2 : list Qc) (rSpectre : list complex)
    : outcome (list complex * list Qc) :=
  '(f1, mSpectre, f2, rSpectre) ← aligned f1 mSpectre f2 rSpectre;
  H ← np_divide rSpectre mSpectre;
  H ← obspy_smooth H (smooth_window kwargs f1);
  Return (H, f1).

(** [a] is the largest magnitude of the bins of [f]. *)
Definition largest_magnitude (f : list Qc) (a : Qc) : Prop :=
  (∃ y, y ∈ f ∧ a = Qcabs.Qcabs y) ∧ ∀ y, y ∈ f → (Qcabs.Qcabs y <= a)%Qc.

(** The two traces that [crossCalib] hands to [whiteCalib], or the
    exception raised on the way: both filtered if [ffilter] is given, the
    monitor first, then the monitor deconvolved if [deconvolve] is set and
    [paz] is given; and the lines that [crossCalib] prints itself. *)
Definition prepared {L : SignalLib} (kwargs : Kwargs) (m r : Trace)
    : outcome (Trace * Trace) :=
  m1 ← filtered kwargs m;
  r1 ← filtered kwargs r;
  m2 ← match kw_deconvolve kwargs, kw_paz kwargs with
       | Some true, Some paz => simulate paz m1
       | _, _ => Return m1
       end;
  Return (m2, r1).

Definition crossCalib_lines (kwargs : Kwargs) : list string :=
  match kw_deconvolve kwargs, kw_paz kwargs with
  | Some true, None => [no_paz_error]
  | _, _ => []
  end.

(** * Properties *)

(** ** The effects *)

Lemma pure_io_ret {A} (a : A) : pure_io (ret a).
Proof. intros w. unfold ret. simpl. by rewrite app_nil_r; destruct w. Qed.

Lemma pure_io_lift {A} (o : outcome A) : pure_io (lift o).
Proof. intros w. unfold lift. simpl. by rewrite app_nil_r; destruct w. Qed.

Lemma pure_io_print s : pure_io (print s).
Proof. intros w. reflexivity. Qed.

Lemma pure_io_bind {A B} (m : py A) (k : A → py B) :
  pure_io m → (∀ a, pure_io (k a)) → pure_io (m ≫= k).
Proof.
  intros Hm Hk w. unfold mbind, py_bind.
  pose proof (Hm empty_world) as H0. rewrite (Hm w).
  destruct (m empty_world) as [o w1]. simpl in *.
  injection H0 as Hw1. destruct o as [a|e]; simpl.
  - rewrite (Hk a (World _ _)), (Hk a w1). simpl.
    rewrite Hw1. simpl. by rewrite app_assoc.
  - by rewrite Hw1.
Qed.

Ltac pure_io_tac :=
  repeat first
    [ apply pure_io_ret | apply pure_io_lift | apply pure_io_print
    | apply pure_io_bind; [| intros ?]
    | progress cbv zeta
    | match goal with
      | |- pure_io (if ?b then _ else _) => destruct b
      | |- pure_io (match ?x with (_, _) => _ end) => destruct x
      | |- pure_io (let '(_, _) := ?x in _) => destruct x
      end ].

Section Effects.
Context {L : SignalLib}.

Lemma pure_io_align f1 mS f2 rS : pure_io (align f1 mS f2 rS).
Proof. unfold align. pure_io_tac. Qed.

Lemma pure_io_transfer_function m r kwargs :
  pure_io (transfer_function m r kwargs).
Proof.
  unfold transfer_function. pure_io_tac. apply pure_io_align.
Qed.

Lemma fresh_lookup (h : gmap nat Trace) : h !! fresh (dom h) = None.
Proof. apply not_elem_of_dom, is_fresh. Qed.

Lemma whiteCalib_run w ml rl m r kwargs :
  heap w !! ml = Some m → heap w !! rl = Some r →
  whiteCalib ml rl kwargs w
  = transfer_function m r kwargs
      (World (after_copies m r (heap w)) (stdout w)).
Proof.
  intros Hm Hr. unfold whiteCalib, mbind, py_bind, Trace_copy, load, after_copies.
  rewrite Hm. simpl.
  assert (fresh (dom (heap w)) ≠ rl) as Hne.
  { intros E. rewrite <- E, fresh_lookup in Hr. discriminate. }
  rewrite lookup_insert_ne, Hr by done. simpl.
  set (h1 := <[fresh (dom (heap w)) := m]> (heap w)).
  assert (fresh (dom h1) ≠ fresh (dom (heap w))) as Hne2.
  { intros E. pose proof (fresh_lookup h1) as F. rewrite E in F.
    unfold h1 in F at 1. rewrite lookup_insert_eq in F. discriminate. }
  rewrite lookup_insert_ne by done.
  unfold h1 at 1. rewrite lookup_insert_eq. simpl.
  by rewrite lookup_insert_eq.
Qed.

(** The result, the store and the output of [whiteCalib] on two traces
    of the store. *)
Lemma whiteCalib_pure w ml rl m r kwargs :
  heap w !! ml = Some m → heap w !! rl = Some r →
  whiteCalib ml rl kwargs w
  = (fst (transfer_function m r kwargs empty_world),
     World (after_copies m r (heap w))
           (stdout w ++ stdout (snd (transfer_function m r kwargs empty_world)))).
Proof.
  intros Hm Hr. rewrite (whiteCalib_run _ _ _ _ _ _ Hm Hr).
  by rewrite pure_io_transfer_function.
Qed.

Lemma preserves_ret {A} h0 (a : A) : preserves h0 (ret a).
Proof. by intros w Hw. Qed.

Lemma preserves_pure_io {A} h0 (c : py A) : pure_io c → preserves h0 c.
Proof. intros Hc w Hw. by rewrite Hc. Qed.

Lemma preserves_bind {A B} h0 (m : py A) (k : A → py B) :
  preserves h0 m → (∀ a, preserves h0 (k a)) → preserves h0 (m ≫= k).
Proof.
  intros Hm Hk w Hw. unfold mbind, py_bind.
  specialize (Hm w Hw). destruct (m w) as [[a|e] w1]; simpl in *; [|done].
  by apply Hk.
Qed.

Lemma preserves_load h0 t : preserves h0 (load t).
Proof. intros w Hw. unfold load. by destruct (heap w !! t). Qed.

Lemma preserves_copy_bind {B} h0 t (k : nat → py B) :
  (∀ l, h0 !! l = None → preserves h0 (k l)) →
  preserves h0 (Trace_copy t ≫= k).
Proof.
  intros Hk w Hw. unfold mbind, py_bind, Trace_copy.
  destruct (heap w !! t) as [x|]; simpl; [|done].
  assert (h0 !! fresh (dom (heap w)) = None) as Hfresh.
  { eapply lookup_weaken_None; [apply fresh_lookup | done]. }
  apply Hk; [done|]. simpl. by apply insert_subseteq_r.
Qed.

Lemma preserves_filter h0 t freq :
  h0 !! t = None → preserves h0 (Trace_filter t freq).
Proof.
  intros Ht w Hw. unfold Trace_filter.
  destruct (heap w !! t) as [tr|]; [|done].
  destruct (highpass freq tr); simpl; [by apply insert_subseteq_r | done].
Qed.

Lemma preserves_simulate h0 t paz :
  h0 !! t = None → preserves h0 (Trace_simulate t paz).
Proof.
  intros Ht w Hw. unfold Trace_simulate.
  destruct (heap w !! t) as [tr|]; [|done].
  destruct (simulate paz tr); simpl; [by apply insert_subseteq_r | done].
Qed.

Lemma preserves_whiteCalib h0 ml rl kwargs :
  preserves h0 (whiteCalib ml rl kwargs).
Proof.
  unfold whiteCalib.
  apply preserves_copy_bind; intros l1 H1.
  apply preserves_copy_bind; intros l2 H2.
  apply preserves_bind; [apply preserves_load | intros m].
  apply preserves_bind; [apply preserves_load | intros r].
  apply preserves_pure_io, pure_io_transfer_function.
Qed.

Lemma preserves_crossCalib h0 ml rl kwargs :
  preserves h0 (crossCalib ml rl kwargs).
Proof.
  unfold crossCalib.
  apply preserves_copy_bind; intros l1 H1.
  apply preserves_copy_bind; intros l2 H2.
  apply preserves_bind; [| intros _].
  { destruct (kw_ffilter kwargs); [| apply preserves_ret].
    apply preserves_bind; [| intros _]; by apply preserves_filter. }
  apply preserves_bind; [| intros _].
  { destruct (kw_deconvolve kwargs) as [[|]|]; try apply preserves_ret.
    destruct (kw_paz kwargs).
    - by apply preserves_simulate.
    - apply preserves_pure_io, pure_io_print. }
  apply preserves_bind.
  - destruct (kw_smooth kwargs); apply preserves_whiteCalib.
  - intros [H f]. apply preserves_ret.
Qed.

(** C8.  When [whiteCalib] or [crossCalib] returns or raises, every trace
    object that the caller had, the monitor and the response trace among
    them, is where it was and holds what it held: the copies made at entry
    are new objects, and only they are filtered and deconvolved. *)
Theorem caller_traces_unchanged w ml rl kwargs :
  heap w ⊆ heap (snd (whiteCalib ml rl kwargs w))
  ∧ heap w ⊆ heap (snd (crossCalib ml rl kwargs w)).
Proof.
  split.
  - by apply preserves_whiteCalib.
  - by apply preserves_crossCalib.
Qed.

End Effects.

(** ** The frequency axes *)

Lemma fftfreq_bins_length n : length (fftfreq_bins n) = n.
Proof.
  unfold fftfreq_bins. rewrite length_app, !length_map, !length_seq.
  pose proof (Nat.div_mod_eq n 2) as E.
  pose proof (Nat.mod_upper_bound n 2) as B.
  pose proof (Z.div_mod (Z.of_nat n - 1) 2) as E2.
  pose proof (Z.mod_pos_bound (Z.of_nat n - 1) 2) as B2.
  lia.
Qed.

Lemma np_fftfreq_length n d f : np_fftfreq n d = Return f → length f = n.
Proof.
  unfold np_fftfreq. case_bool_decide; [done|].
  intros [= <-]. by rewrite length_map, fftfreq_bins_length.
Qed.

Lemma np_fftfreq_0 d : np_fftfreq 0 d = Raise ZeroDivisionError.
Proof.
  unfold np_fftfreq. rewrite bool_decide_eq_true_2; [done|].
  change (of_nat 0) with 0%Qc. ring.
Qed.

Lemma axis_inv t f :
  axis t = Return f →
  data t ≠ [] ∧ length f = length (data t)
  ∧ ∃ d, truediv 1 (sampling_rate t) = Return d
       ∧ np_fftfreq (length (data t)) d = Return f.
Proof.
  unfold axis. destruct (truediv 1 (sampling_rate t)) as [d|e] eqn:Hd; [|done].
  unfold mbind, outcome_bind. intros Hf.
  split; [|split; [by eapply np_fftfreq_length | eauto]].
  intros E. rewrite E in Hf. change (length []) with 0 in Hf.
  by rewrite np_fftfreq_0 in Hf.
Qed.

Lemma np_sum_subtract_same f : np_sum (np_subtract f f) = 0%Qc.
Proof.
  unfold np_sum, np_subtract.
  induction f as [|x f IH]; [done|]. cbn [zip_with foldr]. rewrite IH. ring.
Qed.

Lemma mismatch_same f : mismatch f f = false.
Proof.
  unfold mismatch. rewrite bool_decide_eq_true_2 by lia. simpl.
  by rewrite np_sum_subtract_same, bool_decide_eq_true_2.
Qed.

Section Alignment.
Context {L : SignalLib}.

Lemma np_fft_nonempty x : x ≠ [] → np_fft x = Return (fft x).
Proof. by destruct x. Qed.

Lemma lift_bind {A B} (a : A) (k : A → py B) : lift (Return a) ≫= k = k a.
Proof. reflexivity. Qed.

(** [transfer_function] once the two spectra and the two axes are there. *)
Lemma transfer_function_unfold m r kwargs f1 f2 :
  axis m = Return f1 → axis r = Return f2 →
  transfer_function m r kwargs
  = ('(f1', mS, f2', rS) ← align f1 (fft (data m)) f2 (fft (data r));
     H ← lift (np_divide rS mS);
     H ← lift (obspy_smooth H (smooth_window kwargs f1'));
     ret (H, f1')).
Proof.
  intros (Hm & _ & d1 & Hd1 & Hf1)%axis_inv (Hr & _ & d2 & Hd2 & Hf2)%axis_inv.
  unfold transfer_function.
  rewrite (np_fft_nonempty _ Hm), lift_bind; cbv beta.
  rewrite (np_fft_nonempty _ Hr), lift_bind; cbv beta.
  rewrite !fft_length, Hd1, lift_bind; cbv beta. rewrite Hf1, lift_bind; cbv beta.
  rewrite Hd2, lift_bind; cbv beta. by rewrite Hf2, lift_bind.
Qed.

Lemma align_same f mS rS w :
  align f mS f rS w = (Return (f, mS, f, rS), w).
Proof. unfold align. by rewrite mismatch_same. Qed.

Lemma whiteCalib_same_axis w ml rl m r kwargs f :
  heap w !! ml = Some m → heap w !! rl = Some r →
  axis m = Return f → axis r = Return f →
  whiteCalib ml rl kwargs w
  = (H ← obspy_smooth (zip_with cdiv (fft (data r)) (fft (data m)))
                      (smooth_window kwargs f);
     Return (H, f),
     World (after_copies m r (heap w)) (stdout w)).
Proof.
  intros Hm Hr Hf1 Hf2.
  rewrite (whiteCalib_run _ _ _ _ _ _ Hm Hr).
  rewrite (transfer_function_unfold _ _ _ _ _ Hf1 Hf2).
  unfold mbind at 1, py_bind at 1. rewrite align_same.
  apply axis_inv in Hf1 as (_ & L1 & _). apply axis_inv in Hf2 as (_ & L2 & _).
  unfold mbind, py_bind, outcome_bind, lift, np_divide, ret.
  rewrite bool_decide_eq_true_2 by (rewrite !fft_length; congruence).
  by destruct (obspy_smooth _ _).
Qed.

Lemma quotient_length m r f :
  axis m = Return f → axis r = Return f →
  length (zip_with cdiv (fft (data r)) (fft (data m))) = length f.
Proof.
  intros (_ & L1 & _)%axis_inv (_ & L2 & _)%axis_inv.
  rewrite length_zip_with, !fft_length. lia.
Qed.

(** The smoothing returns when the window is shorter than the array. *)
Lemma obspy_smooth_Return x n :
  (n < Z.of_nat (length x))%Z → obspy_smooth x n = Return (smooth x n).
Proof.
  intros Hn. unfold obspy_smooth. rewrite bool_decide_eq_false_2; [done | lia].
Qed.

Lemma obspy_smooth_Raise x n :
  (0 < n)%Z → (Z.of_nat (length x) ≤ n)%Z → obspy_smooth x n = Raise IndexError.
Proof. intros H0 Hn. unfold obspy_smooth. by rewrite bool_decide_eq_true_2. Qed.

(** C6.  When the two frequency axes have one length and are equal at
    every index, the aligner returns the axes and the spectra as they are
    and prints no warning; [whiteCalib] prints nothing and, when the
    smoothing window is shorter than the axis (the default window is),
    returns the monitor's axis whole with an [H] of its length, which is
    the smoothed quotient of the two whole spectra when the monitor
    spectrum has no zero bin.  A positive window that is not shorter is
    the [IndexError] of the smoothing. *)
Theorem identical_axes_no_reconciliation w ml rl m r kwargs f1 f2 :
  heap w !! ml = Some m → heap w !! rl = Some r →
  axis m = Return f1 → axis r = Return f2 →
  length f1 = length f2 → (∀ i, f1 !! i = f2 !! i) →
  (∀ mS rS w', align f1 mS f2 rS w' = (Return (f1, mS, f2, rS), w'))
  ∧ snd (whiteCalib ml rl kwargs w)
    = World (after_copies m r (heap w)) (stdout w)
  ∧ ((smooth_window kwargs f1 < Z.of_nat (length f1))%Z →
     ∃ H, fst (whiteCalib ml rl kwargs w) = Return (H, f1)
        ∧ length H = length f1
        ∧ (Forall (λ z, z ≠ Complex 0 0) (fft (data m)) →
           H = smooth (zip_with cdiv (fft (data r)) (fft (data m)))
                      (smooth_window kwargs f1)))
  ∧ ((0 < smooth_window kwargs f1)%Z →
     (Z.of_nat (length f1) ≤ smooth_window kwargs f1)%Z →
     fst (whiteCalib ml rl kwargs w) = Raise IndexError).
Proof.
  intros Hm Hr Hf1 Hf2 Hlen Heq.
  assert (f2 = f1) as -> by (symmetry; by apply list_eq).
  pose proof (quotient_length _ _ _ Hf1 Hf2) as Lq.
  rewrite (whiteCalib_same_axis _ _ _ _ _ _ _ Hm Hr Hf1 Hf2).
  split_and!.
  - intros; apply align_same.
  - done.
  - intros Hwin. rewrite obspy_smooth_Return by lia.
    eexists. split_and!; [done | by rewrite smooth_length | done].
  - intros H0 Hwin. by rewrite obspy_smooth_Raise by lia.
Qed.

(** ** The spectral division *)





End Alignment.

(** ** np.argmin *)

Lemma argmin_from_spec l best ibest i :
  let r := argbest_from (λ u v, bool_decide (u < v)%Qc) best ibest i l in
  (r = ibest ∧ ∀ j u, l !! j = Some u → (best <= u)%Qc)
  ∨ (∃ k v, r = i + k ∧ l !! k = Some v ∧ (v < best)%Qc
          ∧ (∀ j u, l !! j = Some u → (v <= u)%Qc)
          ∧ (∀ j u, j < k → l !! j = Some u → (v < u)%Qc)).
Proof.
  revert best ibest i.
  induction l as [|x l IH]; intros best ibest i; cbn [argbest_from].
  { left. split; [done|]. intros j u Hj. by rewrite lookup_nil in Hj. }
  case_bool_decide as Hx.
  - right. destruct (IH x i (S i)) as [[-> Hall]|(k & v & -> & Hk & Hv & Hmin & Hfirst)].
    + exists 0, x. split_and!; [lia | done | done | | intros; lia].
      intros [|j] u Hj; simplify_eq/=; [apply Qcle_refl | by eapply Hall].
    + exists (S k), v. split_and!; [lia | done | by etrans | |].
      * intros [|j] u Hj; simplify_eq/=; [by apply Qclt_le_weak | by eapply Hmin].
      * intros [|j] u Hlt Hj; simplify_eq/=; [done | eapply Hfirst; [|done]; lia].
  - apply Qcnot_lt_le in Hx.
    destruct (IH best ibest (S i)) as [[-> Hall]|(k & v & -> & Hk & Hv & Hmin & Hfirst)].
    + left. split; [done|].
      intros [|j] u Hj; simplify_eq/=; [done | by eapply Hall].
    + right. exists (S k), v. split_and!; [lia | done | done | |].
      * intros [|j] u Hj; simplify_eq/=; [|by eapply Hmin].
        apply Qclt_le_weak. by eapply Qclt_le_trans.
      * intros [|j] u Hlt Hj; simplify_eq/=; [by eapply Qclt_le_trans|].
        eapply Hfirst; [|done]; lia.
Qed.

Lemma np_argmin_first l i : np_argmin l = Return i → first_argmin l i.
Proof.
  destruct l as [|a l]; [done|]. unfold np_argmin. intros [= <-].
  destruct (argmin_from_spec l a 0 1) as [[-> Hall]|(k & v & -> & Hk & Hv & Hmin & Hfirst)].
  - exists a. split_and!; [done | | intros; lia].
    intros [|j] u Hj; simplify_eq/=; [apply Qcle_refl | by eapply Hall].
  - exists v. split_and!; [done | |].
    + intros [|j] u Hj; simplify_eq/=; [by apply Qclt_le_weak | by eapply Hmin].
    + intros [|j] u Hlt Hj; simplify_eq/=; [done | eapply Hfirst; [|done]; lia].
Qed.

Lemma first_argmin_unique l i j : first_argmin l i → first_argmin l j → i = j.
Proof.
  intros (v & Hi & Hmin & Hfirst) (v' & Hj & Hmin' & Hfirst').
  destruct (Nat.lt_trichotomy i j) as [Hlt|[->|Hlt]]; [|done|].
  - pose proof (Hfirst' _ _ Hlt Hi) as H1. pose proof (Hmin _ _ Hj) as H2.
    by apply Qcle_not_lt in H2.
  - pose proof (Hfirst _ _ Hlt Hj) as H1. pose proof (Hmin' _ _ Hi) as H2.
    by apply Qcle_not_lt in H2.
Qed.

(** [np.argmin] returns the first index of a least element, and raises
    on an empty array only. *)
Lemma np_argmin_complete l i : first_argmin l i → np_argmin l = Return i.
Proof.
  intros Hi. destruct (np_argmin l) as [j|e] eqn:E.
  - apply np_argmin_first in E. f_equal. by eapply first_argmin_unique.
  - destruct l; [|done]. destruct Hi as (v & Hv & _). by rewrite lookup_nil in Hv.
Qed.

Lemma slice_empty {A} (x : list A) lo hi : hi ≤ lo → slice x lo hi = [].
Proof. intros H. unfold slice. by replace (hi - lo) with 0 by lia. Qed.

(** ** Hparameters *)

Lemma slice_lookup {A} (x : list A) lo hi j :
  slice x lo hi !! j = if decide (j < hi - lo) then x !! (lo + j) else None.
Proof.
  unfold slice. case_decide.
  - by rewrite lookup_take_lt, lookup_drop.
  - apply lookup_take_ge. lia.
Qed.

Lemma window_argmin_slice H lo hi indx :
  window_argmin H lo hi indx →
  first_argmin (np_absolute (np_real (slice H lo hi))) (indx - lo).
Proof.
  intros (Hin & z & Hz & Hmin & Hfirst). exists (Qcabs.Qcabs (re z)).
  unfold np_absolute, np_real. split_and!.
  - rewrite !list_lookup_fmap, slice_lookup, decide_True by lia.
    replace (lo + (indx - lo)) with indx by lia. by rewrite Hz.
  - intros j u. rewrite !list_lookup_fmap, slice_lookup.
    case_decide; [|done]. destruct (H !! (lo + j)) as [c|] eqn:Hc; [|done].
    intros [= <-]. eapply Hmin; [|done]. lia.
  - intros j u Hj. rewrite !list_lookup_fmap, slice_lookup.
    case_decide; [|done]. destruct (H !! (lo + j)) as [c|] eqn:Hc; [|done].
    intros [= <-]. eapply Hfirst; [|done]. lia.
Qed.

Section Parameters.
Context {L : SignalLib}.

Lemma closest_bin_argmin f x i :
  closest_bin f x i → np_argmin (np_absolute (map (λ y, fsub y x) f)) = Return i.
Proof.
  intros Hi. apply np_argmin_complete. unfold np_absolute.
  by rewrite <- list_fmap_compose.
Qed.

Lemma inorm_closest f kwargs inorm :
  closest_bin f (fnorm_of kwargs) inorm →
  match kw_fnorm kwargs with
  | Some fnorm => np_argmin (np_absolute (map (λ x, fsub x fnorm) f))
  | None => np_argmin (np_absolute (map (λ x, fsub x 1) f))
  end = Return inorm.
Proof.
  unfold fnorm_of. destruct (kw_fnorm kwargs); apply closest_bin_argmin.
Qed.

Lemma imin_closest f kwargs imin :
  closest_bin f (fmin_of kwargs) imin →
  match kw_fmin kwargs with
  | Some fmin => np_argmin (np_absolute (map (λ x, fsub x fmin) f))
  | None => np_argmin (np_absolute (map (λ x, fsub x (frac 1 1000)) f))
  end = Return imin.
Proof.
  unfold fmin_of. destruct (kw_fmin kwargs); apply closest_bin_argmin.
Qed.

(** C9.  When the bin closest to [fmin] is not before the bin closest to
    [fnorm] (closest by the differences as the code computes them), the
    search window is empty and [Hparameters] raises the [ValueError] of
    [argmin] on an empty array; it returns no triple. *)
Theorem empty_search_window_raises H f kwargs inorm imin :
  closest_bin f (fnorm_of kwargs) inorm →
  closest_bin f (fmin_of kwargs) imin →
  inorm ≤ imin →
  slice H imin inorm = [] ∧ Hparameters H f kwargs = Raise ValueError.
Proof.
  intros Hn Hm Hle. split; [by apply slice_empty|].
  unfold Hparameters.
  rewrite (inorm_closest _ _ _ Hn), (imin_closest _ _ _ Hm).
  cbn [mbind outcome_bind]. by rewrite slice_empty.
Qed.

(** The steps of [Hparameters] once its three indices are known. *)
Lemma Hparameters_window H f kwargs inorm imin indx :
  length H = length f →
  closest_bin f (fnorm_of kwargs) inorm →
  closest_bin f (fmin_of kwargs) imin →
  window_argmin H imin inorm indx →
  ∃ fc Hc Hn,
    f !! indx = Some fc ∧ H !! indx = Some Hc ∧ H !! inorm = Some Hn
    ∧ Hparameters H f kwargs
      = Return (fc, fdiv (Fin 1) (fmul (Fin 2) (fdiv (cabs Hc) (cabs Hn))),
                cabs Hn).
Proof.
  intros Hlen Hn Hm Hw.
  pose proof (window_argmin_slice _ _ _ _ Hw) as Hi%np_argmin_complete.
  destruct Hw as ([Hlo Hhi] & Hc & HHc & _).
  pose proof Hn as (v & Hv & _).
  apply lookup_lt_Some in Hv. rewrite length_map in Hv.
  destruct (lookup_lt_is_Some_2 H inorm) as [Hnorm HHn]; [lia|].
  destruct (lookup_lt_is_Some_2 f indx) as [fc Hfc]; [lia|].
  exists fc, Hc, Hnorm. split_and!; [done..|].
  unfold Hparameters.
  rewrite (inorm_closest _ _ _ Hn), (imin_closest _ _ _ Hm).
  cbn [mbind outcome_bind]. rewrite Hi. cbn [mbind outcome_bind].
  replace (indx - imin + imin) with indx by lia.
  unfold getitem, np_absolute_c. rewrite HHn. cbn [mbind outcome_bind].
  rewrite Hfc. cbn [mbind outcome_bind].
  by rewrite !list_lookup_fmap, HHc.
Qed.

(** C2.  On a transfer function [(H, f)] of finite values, with [inorm]
    the bin closest to [fnorm], [imin] the bin closest to [fmin] (closest
    by the differences as the code computes them) and [indx] the first
    index of the window [imin, inorm) where [|Re(H)|] is least,
    [Hparameters] returns [(f[indx], 1/(2*Amp[indx]), |H[inorm]|)], for
    [Amp[indx] = |H[indx]|/|H[inorm]|]; the moduli, the two quotients and
    the product are the machine's, [inf] and [nan] included. *)
Theorem Hparameters_returns_triple H f kwargs inorm imin indx :
  length H = length f →
  closest_bin f (fnorm_of kwargs) inorm →
  closest_bin f (fmin_of kwargs) imin →
  window_argmin H imin inorm indx →
  ∃ fc Hc Hn Amp_indx,
    f !! indx = Some fc ∧ H !! indx = Some Hc ∧ H !! inorm = Some Hn
    ∧ Amp_indx = fdiv (cabs Hc) (cabs Hn)
    ∧ Hparameters H f kwargs
      = Return (fc, fdiv (Fin 1) (fmul (Fin 2) Amp_indx), cabs Hn).
Proof.
  intros Hlen Hn Hm Hw.
  destruct (Hparameters_window _ _ _ _ _ _ Hlen Hn Hm Hw)
    as (fc & Hc & Hnorm & Hfc & HHc & HHn & E).
  by exists fc, Hc, Hnorm, (fdiv (cabs Hc) (cabs Hnorm)).
Qed.

End Parameters.

(** ** The returned axis *)

Lemma bind_Return_inv {A B} (m : py A) (k : A → py B) w b w' :
  (m ≫= k) w = (Return b, w') →
  ∃ a w1, m w = (Return a, w1) ∧ k a w1 = (Return b, w').
Proof.
  unfold mbind, py_bind. destruct (m w) as [[a|e] w1]; [eauto | done].
Qed.

Lemma lift_Return_inv {A} (o : outcome A) w a w1 :
  lift o w = (Return a, w1) → o = Return a ∧ w1 = w.
Proof. unfold lift. by intros [= -> ->]. Qed.

Lemma outcome_bind_Return_inv {A B} (m : outcome A) (k : A → outcome B) b :
  m ≫= k = Return b → ∃ a, m = Return a ∧ k a = Return b.
Proof. destruct m as [a|e]; [eauto | done]. Qed.

Lemma take_indices_sublist {A} (P : nat → Prop) `{∀ i, Decision (P i)}
    (x : list A) n i l :
  take_indices x (filter P (seq i n)) = Return l → l `sublist_of` drop i x.
Proof.
  revert i l. induction n as [|n IH]; intros i l; cbn [seq].
  { intros [= <-]. apply sublist_nil_l. }
  rewrite filter_cons. case_decide.
  - cbn [take_indices]. intros (a & Ha & (r & Hr & [= <-])%outcome_bind_Return_inv)
      %outcome_bind_Return_inv.
    unfold getitem in Ha. destruct (x !! i) as [a'|] eqn:Hi; [|done].
    injection Ha as ->. rewrite (drop_S _ _ _ Hi).
    apply sublist_skip. by apply IH.
  - intros Hl%IH. etrans; [done|].
    replace (S i) with (i + 1) by lia. rewrite <- drop_drop. apply sublist_drop.
Qed.

Lemma np_where_sublist {A} (x : list A) mask l :
  take_indices x (np_where mask) = Return l → l `sublist_of` x.
Proof. unfold np_where. intros Hl%take_indices_sublist. by rewrite drop_0 in Hl. Qed.

Lemma np_delete_sublist {A} (x : list A) i l :
  np_delete x i = Return l → l `sublist_of` x.
Proof.
  unfold np_delete. case_bool_decide; [|done]. intros [= <-]. apply sublist_delete.
Qed.

Lemma trim_ends_sublist f S f' S' :
  trim_ends f S = Return (f', S') → f' `sublist_of` f ∧ S' `sublist_of` S.
Proof.
  unfold trim_ends.
  intros (i & _ & (f1 & Hf1 & (S1 & HS1 & (j & _ & (f2 & Hf2 & (S2 & HS2 & E)
    %outcome_bind_Return_inv)%outcome_bind_Return_inv)%outcome_bind_Return_inv)
    %outcome_bind_Return_inv)%outcome_bind_Return_inv)%outcome_bind_Return_inv.
  injection E as <- <-.
  apply np_delete_sublist in Hf1, HS1, Hf2, HS2. split; by etrans.
Qed.

Ltac inv_lift :=
  repeat match goal with
  | H : lift _ _ = (Return _, _) |- _ =>
      apply lift_Return_inv in H as [H ->]
  | H : ret _ _ = (Return _, _) |- _ => unfold ret in H; simplify_eq
  end.

Ltac inv_bind H :=
  let a := fresh "a" in
  let w1 := fresh "w" in
  let Hs := fresh "Hstep" in
  apply bind_Return_inv in H as (a & w1 & Hs & H).

Section ReturnedAxis.
Context {L : SignalLib}.

(** What the aligner returns is cut out of what it was given, each array
    out of itself. *)
Lemma align_sublist f1 mS f2 rS w f1' mS' f2' rS' w' :
  align f1 mS f2 rS w = (Return (f1', mS', f2', rS'), w') →
  f1' `sublist_of` f1 ∧ mS' `sublist_of` mS
  ∧ f2' `sublist_of` f2 ∧ rS' `sublist_of` rS.
Proof.
  unfold align. destruct (mismatch f1 f2).
  2:{ intros ?. inv_lift. done. }
  intros H. do 7 inv_bind H. inv_lift.
  apply np_where_sublist in Hstep2, Hstep3, Hstep4, Hstep5.
  repeat case_bool_decide.
  - inv_bind H. inv_lift.
    match goal with
    | T : trim_ends _ _ = Return ?p |- _ =>
        destruct p; apply trim_ends_sublist in T as [? ?]
    end.
    inv_lift. split_and!; by etrans.
  - inv_bind H. inv_lift.
    match goal with
    | T : trim_ends _ _ = Return ?p |- _ =>
        destruct p; apply trim_ends_sublist in T as [? ?]
    end.
    inv_lift. split_and!; by etrans.
  - inv_lift. done.
Qed.

Lemma np_fft_Return_inv x S : np_fft x = Return S → S = fft x.
Proof. destruct x; [done|]. by intros [= <-]. Qed.

Lemma transfer_function_axes m r kwargs w H f w' :
  transfer_function m r kwargs w = (Return (H, f), w') →
  ∃ f1 f2, axis m = Return f1 ∧ axis r = Return f2.
Proof.
  unfold transfer_function. intros E. do 6 inv_bind E. inv_lift.
  repeat match goal with
  | T : np_fft _ = Return _ |- _ => apply np_fft_Return_inv in T as ->
  end.
  rewrite fft_length in *. unfold axis.
  repeat match goal with
  | T : truediv _ _ = Return _ |- _ => rewrite T
  end.
  eauto.
Qed.

(** C10.  The axis that [whiteCalib] returns is cut out of the monitor
    trace's axis [f1]: it is [f1], or [f1] without some of its bins, in
    the order of [f1].  The response trace's axis is not returned. *)
Theorem returned_axis_is_monitor_axis w ml rl m r kwargs H f :
  heap w !! ml = Some m → heap w !! rl = Some r →
  fst (whiteCalib ml rl kwargs w) = Return (H, f) →
  ∃ f1, axis m = Return f1 ∧ f `sublist_of` f1.
Proof.
  intros Hm Hr. rewrite (whiteCalib_run _ _ _ _ _ _ Hm Hr).
  destruct (transfer_function _ _ _ _) as [o w'] eqn:E. simpl. intros ->.
  destruct (transfer_function_axes _ _ _ _ _ _ _ E) as (f1 & f2 & Hf1 & Hf2).
  exists f1. split; [done|].
  rewrite (transfer_function_unfold _ _ _ _ _ Hf1 Hf2) in E.
  inv_bind E. destruct a as [[[g1 T1] g2] T2].
  apply align_sublist in Hstep as (Hsub & _).
  inv_bind E. inv_bind E. inv_lift. done.
Qed.

End ReturnedAxis.

(** ** crossCalib without a poles and zeros model *)

Section MissingPaz.
Context {L : SignalLib}.

Lemma after_copies_lookup m r (h : gmap nat Trace) :
  let l1 := fresh (dom h) in
  let l2 := fresh (dom (<[l1 := m]> h)) in
  l1 ≠ l2 ∧ after_copies m r h !! l1 = Some m ∧ after_copies m r h !! l2 = Some r.
Proof.
  intros l1 l2. unfold after_copies. fold l1. fold l2.
  assert (l1 ≠ l2) as Hne.
  { intros E. pose proof (fresh_lookup (<[l1 := m]> h)) as F.
    fold l2 in F. rewrite <- E, lookup_insert_eq in F. discriminate. }
  split_and!; [done | |].
  - by rewrite lookup_insert_ne, lookup_insert_eq.
  - by rewrite lookup_insert_eq.
Qed.

Lemma copies_run {B} (k : nat → nat → py B) w ml rl m r :
  heap w !! ml = Some m → heap w !! rl = Some r →
  (Trace_copy ml ≫= λ a, Trace_copy rl ≫= λ b, k a b) w
  = k (fresh (dom (heap w))) (fresh (dom (<[fresh (dom (heap w)) := m]> (heap w))))
      (World (after_copies m r (heap w)) (stdout w)).
Proof.
  intros Hm Hr. unfold mbind, py_bind, Trace_copy. rewrite Hm. simpl.
  rewrite lookup_insert_ne, Hr; [done|].
  intros E. rewrite <- E, fresh_lookup in Hr. discriminate.
Qed.

Lemma bind_run {A B} (m : py A) (k : A → py B) w a w1 :
  m w = (Return a, w1) → (m ≫= k) w = k a w1.
Proof. intros E. unfold mbind, py_bind. by rewrite E. Qed.

Lemma bind_ret_pair {A B} (c : py (A * B)) w :
  (c ≫= λ '(a, b), ret (a, b)) w = c w.
Proof.
  unfold mbind, py_bind, ret. by destruct (c w) as [[[a b]|e] w'].
Qed.

Lemma bind_raise {A B} (m : py A) (k : A → py B) w e w1 :
  m w = (Raise e, w1) → (m ≫= k) w = (Raise e, w1).
Proof. intros E. unfold mbind, py_bind. by rewrite E. Qed.

(** The run of [crossCalib]: once the traces are prepared, the transfer
    function of the prepared traces after the lines that [crossCalib]
    prints itself; when the filter or the deconvolution raises, that
    exception, and nothing is printed. *)
Lemma crossCalib_run w ml rl m r kwargs :
  heap w !! ml = Some m → heap w !! rl = Some r →
  match prepared kwargs m r with
  | Return (m', r') =>
      let c := transfer_function m' r' (forwarded kwargs) empty_world in
      fst (crossCalib ml rl kwargs w) = fst c
      ∧ stdout (snd (crossCalib ml rl kwargs w))
        = stdout w ++ crossCalib_lines kwargs ++ stdout (snd c)
  | Raise e =>
      fst (crossCalib ml rl kwargs w) = Raise e
      ∧ stdout (snd (crossCalib ml rl kwargs w)) = stdout w
  end.
Proof.
  intros Hm Hr. unfold crossCalib.
  rewrite (copies_run _ _ _ _ _ _ Hm Hr).
  destruct (after_copies_lookup m r (heap w)) as (Hne & H1 & H2).
  set (l1 := fresh (dom (heap w))) in *.
  set (l2 := fresh (dom (<[l1 := m]> (heap w)))) in *.
  set (h2 := after_copies m r (heap w)) in *.
  set (filters := match kw_ffilter kwargs with
                  | Some freq => Trace_filter l1 freq;; Trace_filter l2 freq
                  | None => ret ()
                  end).
  set (deconvolution := match kw_deconvolve kwargs with
                        | Some true =>
                            match kw_paz kwargs with
                            | Some paz => Trace_simulate l1 paz
                            | None => print no_paz_error
                            end
                        | _ => ret ()
                        end).
  assert (match filtered kwargs m, filtered kwargs r with
          | Return m1, Return r1 =>
              ∃ h3, h3 !! l1 = Some m1 ∧ h3 !! l2 = Some r1
                    ∧ filters (World h2 (stdout w)) = (Return (), World h3 (stdout w))
          | Return m1, Raise e =>
              ∃ h3, filters (World h2 (stdout w)) = (Raise e, World h3 (stdout w))
          | Raise e, _ =>
              filters (World h2 (stdout w)) = (Raise e, World h2 (stdout w))
          end) as F.
  { unfold filtered, filters. destruct (kw_ffilter kwargs) as [freq|].
    - unfold mbind, py_bind, Trace_filter. cbn [heap stdout]. rewrite H1.
      destruct (highpass freq m) as [m1|e]; [|done].
      cbn [heap stdout]. rewrite lookup_insert_ne, H2 by done.
      destruct (highpass freq r) as [r1|e]; [|by eexists].
      exists (<[l2 := r1]> (<[l1 := m1]> h2)). split_and!; [| |done].
      + by rewrite lookup_insert_ne, lookup_insert_eq.
      + by rewrite lookup_insert_eq.
    - by exists h2. }
  unfold prepared.
  destruct (filtered kwargs m) as [m1|e]; cbn [mbind outcome_bind];
    [|by rewrite (bind_raise _ _ _ _ _ F)].
  destruct (filtered kwargs r) as [r1|e]; cbn [mbind outcome_bind];
    [|destruct F as [h3 F]; by rewrite (bind_raise _ _ _ _ _ F)].
  destruct F as (h3 & G1 & G2 & G3).
  rewrite (bind_run _ _ _ _ _ G3).
  assert (match (match kw_deconvolve kwargs, kw_paz kwargs with
                 | Some true, Some paz => simulate paz m1
                 | _, _ => Return m1
                 end) with
          | Return m2 =>
              ∃ h4, h4 !! l1 = Some m2 ∧ h4 !! l2 = Some r1
                    ∧ deconvolution (World h3 (stdout w))
                      = (Return (), World h4 (stdout w ++ crossCalib_lines kwargs))
          | Raise e =>
              deconvolution (World h3 (stdout w)) = (Raise e, World h3 (stdout w))
          end) as K.
  { unfold deconvolution, crossCalib_lines.
    destruct (kw_deconvolve kwargs) as [[|]|]; [destruct (kw_paz kwargs) as [paz|]| |].
    - unfold Trace_simulate. cbn [heap stdout]. rewrite G1.
      destruct (simulate paz m1) as [m2|e]; [|done].
      exists (<[l1 := m2]> h3). split_and!.
      + by rewrite lookup_insert_eq.
      + by rewrite lookup_insert_ne.
      + by rewrite app_nil_r.
    - by exists h3.
    - exists h3. split_and!; [done..|]. unfold ret. by rewrite app_nil_r.
    - exists h3. split_and!; [done..|]. unfold ret. by rewrite app_nil_r. }
  destruct (match kw_deconvolve kwargs, kw_paz kwargs with
            | Some true, Some paz => simulate paz m1
            | _, _ => Return m1
            end) as [m2|e]; cbn [mbind outcome_bind];
    [|by rewrite (bind_raise _ _ _ _ _ K)].
  destruct K as (h4 & K1 & K2 & K3).
  rewrite (bind_run _ _ _ _ _ K3), bind_ret_pair.
  set (c := transfer_function m2 r1 (forwarded kwargs) empty_world).
  assert (whiteCalib l1 l2 (forwarded kwargs)
            (World h4 (stdout w ++ crossCalib_lines kwargs))
          = (fst c, World (after_copies m2 r1 h4)
                          ((stdout w ++ crossCalib_lines kwargs) ++ stdout (snd c))))
    as E.
  { by rewrite (whiteCalib_pure (World h4 _) _ _ _ _ _ K1 K2). }
  unfold forwarded in E. destruct (kw_smooth kwargs); rewrite E; cbn [fst snd stdout];
    by rewrite <- app_assoc.
Qed.

Lemma prepared_no_paz kwargs m r m' r' :
  kw_deconvolve kwargs = Some true → kw_paz kwargs = None →
  filtered kwargs m = Return m' → filtered kwargs r = Return r' →
  prepared kwargs m r = Return (m', r') ∧ crossCalib_lines kwargs = [no_paz_error].
Proof.
  intros Hd Hp Em Er. unfold prepared, crossCalib_lines.
  by rewrite Em, Er, Hd, Hp.
Qed.

(** C5.  When [crossCalib] is called with [deconvolve] set and no [paz],
    the missing model raises nothing of its own.  When no [ffilter] is
    given, or the filter returns on both traces, the line [Error: No paz
    for deconvolution] is printed, and the outcome is that of [whiteCalib]
    called on the two traces, filtered if [ffilter] is given and not
    deconvolved: the same [(H, f)] when that call returns, the same
    exception when it raises; the lines that call prints follow the error
    line.  When the filter raises, [crossCalib] raises the same and the
    error line is not printed. *)
Theorem crossCalib_without_paz w ml rl m r kwargs :
  heap w !! ml = Some m → heap w !! rl = Some r →
  kw_deconvolve kwargs = Some true → kw_paz kwargs = None →
  (∀ m' r' w' a b,
     filtered kwargs m = Return m' → filtered kwargs r = Return r' →
     heap w' !! a = Some m' → heap w' !! b = Some r' →
     fst (crossCalib ml rl kwargs w) = fst (whiteCalib a b (forwarded kwargs) w')
     ∧ ∃ out,
         stdout (snd (whiteCalib a b (forwarded kwargs) w')) = stdout w' ++ out
         ∧ stdout (snd (crossCalib ml rl kwargs w))
           = stdout w ++ no_paz_error :: out)
  ∧ (∀ e, filtered kwargs m = Raise e
          ∨ (∃ m', filtered kwargs m = Return m') ∧ filtered kwargs r = Raise e →
          fst (crossCalib ml rl kwargs w) = Raise e
          ∧ stdout (snd (crossCalib ml rl kwargs w)) = stdout w)
  ∧ (kw_ffilter kwargs = None →
     filtered kwargs m = Return m ∧ filtered kwargs r = Return r).
Proof.
  intros Hm Hr Hd Hp.
  pose proof (crossCalib_run _ _ _ _ _ kwargs Hm Hr) as R.
  split_and!.
  - intros m' r' w' a b Em Er Ha Hb.
    destruct (prepared_no_paz _ _ _ _ _ Hd Hp Em Er) as [P Ln].
    rewrite P, Ln in R. cbv zeta in R. destruct R as [E1 E2].
    rewrite (whiteCalib_pure _ _ _ _ _ _ Ha Hb), E1, E2. cbn [fst snd stdout].
    eauto.
  - intros e He. unfold prepared in R.
    destruct He as [Em | [[m' Em] Er]].
    + by rewrite Em in R.
    + by rewrite Em, Er in R.
  - intros Hf. unfold filtered. by rewrite Hf.
Qed.

End MissingPaz.

(** ** The functions on concrete traces *)

Ltac by_compute := apply (bool_decide_eq_true_1 _); vm_compute; reflexivity.

(** An array of a known length, element by element. *)
Ltac shape l H :=
  repeat (destruct l as [|? l];
          [try discriminate H | try discriminate H; try (injection H as H)]).

Lemma lookup_monitor m r : heap (two_traces m r) !! 0 = Some m.
Proof. unfold two_traces. cbn [heap]. by rewrite lookup_insert_ne, lookup_insert_eq. Qed.

Lemma lookup_response m r : heap (two_traces m r) !! 1 = Some r.
Proof. unfold two_traces. cbn [heap]. by rewrite lookup_insert_eq. Qed.

Lemma axis_ramp_2_1 : axis (ramp 2 1) = Return [0%Qc; frac (-1) 2].
Proof. by_compute. Qed.

Lemma axis_ramp_4_1 :
  axis (ramp 4 1) = Return [0%Qc; frac 1 4; frac (-1) 2; frac (-1) 4].
Proof. by_compute. Qed.

Lemma axis_ramp_8_1 :
  axis (ramp 8 1)
  = Return [0%Qc; frac 1 8; frac 1 4; frac 3 8;
            frac (-1) 2; frac (-3) 8; frac (-1) 4; frac (-1) 8].
Proof. by_compute. Qed.

Lemma axis_ramp_3_1 : axis (ramp 3 1) = Return [0%Qc; frac 1 3; frac (-1) 3].
Proof. by_compute. Qed.

Lemma axis_ramp_3_2 : axis (ramp 3 2) = Return [0%Qc; frac 2 3; frac (-2) 3].
Proof. by_compute. Qed.

(** Four bins against eight at one sampling rate: [fmax] is 1/2, the
    filter leaves 3 bins and 7, and the one pair of deletions leaves 3
    and 5. *)
Lemma align_4_8 (a b c d r0 r1 r2 r3 r4 r5 r6 r7 : complex) w :
  ∃ f1' f2',
    align [0%Qc; frac 1 4; frac (-1) 2; frac (-1) 4] [a; b; c; d]
          [0%Qc; frac 1 8; frac 1 4; frac 3 8;
           frac (-1) 2; frac (-3) 8; frac (-1) 4; frac (-1) 8]
          [r0; r1; r2; r3; r4; r5; r6; r7] w
    = (Return (f1', [a; b; d], f2', [r0; r1; r2; r6; r7]),
       World (heap w) (stdout w ++ [mismatch_warning]))
    ∧ f1' = [0%Qc; frac 1 4; frac (-1) 4]
    ∧ f2' = [0%Qc; frac 1 8; frac 1 4; frac (-1) 4; frac (-1) 8].
Proof.
  eexists _, _. split; [|split].
  - lazy. reflexivity.
  - by_compute.
  - by_compute.
Qed.

(** Two bins against eight: the filter leaves 1 bin and 7, and the one
    pair of deletions leaves 1 and 5. *)
Lemma align_2_8 (a b r0 r1 r2 r3 r4 r5 r6 r7 : complex) w :
  ∃ f1' f2',
    align [0%Qc; frac (-1) 2] [a; b]
          [0%Qc; frac 1 8; frac 1 4; frac 3 8;
           frac (-1) 2; frac (-3) 8; frac (-1) 4; frac (-1) 8]
          [r0; r1; r2; r3; r4; r5; r6; r7] w
    = (Return (f1', [a], f2', [r0; r1; r2; r6; r7]),
       World (heap w) (stdout w ++ [mismatch_warning]))
    ∧ f1' = [0%Qc]
    ∧ f2' = [0%Qc; frac 1 8; frac 1 4; frac (-1) 4; frac (-1) 8].
Proof.
  eexists _, _. split; [|split].
  - lazy. reflexivity.
  - by_compute.
  - by_compute.
Qed.

Section Evaluation.
Context {L : SignalLib}.

(** C4, on the code.  After the filter the two axes have 3 and 7 bins, a
    difference of four; the aligner deletes one pair of bins from the
    longer one, once, and returns axes of 3 and 5 bins: the lengths do
    not match. *)
Theorem one_pair_is_trimmed_once
    (a b c d r0 r1 r2 r3 r4 r5 r6 r7 : complex) w :
  ∃ f1 f2 f1' f2',
    axis (ramp 4 1) = Return f1 ∧ axis (ramp 8 1) = Return f2
    ∧ align f1 [a; b; c; d] f2 [r0; r1; r2; r3; r4; r5; r6; r7] w
      = (Return (f1', [a; b; d], f2', [r0; r1; r2; r6; r7]),
         World (heap w) (stdout w ++ [mismatch_warning]))
    ∧ length f1' = 3 ∧ length f2' = 5.
Proof.
  destruct (align_4_8 a b c d r0 r1 r2 r3 r4 r5 r6 r7 w)
    as (f1' & f2' & E & -> & ->).
  eexists _, _, _, _.
  split; [apply axis_ramp_4_1|]. split; [apply axis_ramp_8_1|].
  split; [exact E|]. done.
Qed.

(** The same two traces through [whiteCalib]: the division of 5 bins by
    3 raises. *)
Lemma whiteCalib_4_8_raises :
  fst (whiteCalib 0 1 no_kwargs (two_traces (ramp 4 1) (ramp 8 1)))
  = Raise ValueError.
Proof.
  rewrite (whiteCalib_run _ _ _ _ _ _ (lookup_monitor _ _) (lookup_response _ _)).
  rewrite (transfer_function_unfold _ _ _ _ _ axis_ramp_4_1 axis_ramp_8_1).
  pose proof (fft_length (data (ramp 4 1))) as Hm.
  pose proof (fft_length (data (ramp 8 1))) as Hr.
  change (length (data (ramp 4 1))) with 4 in Hm.
  change (length (data (ramp 8 1))) with 8 in Hr.
  destruct (fft (data (ramp 4 1))) as [|a mS]; [done|]. shape mS Hm.
  destruct (fft (data (ramp 8 1))) as [|r0 rS]; [done|]. shape rS Hr.
  match goal with
  | |- fst ((align ?f1 [?a; ?b; ?c; ?d] ?f2 [?r0; ?r1; ?r2; ?r3; ?r4; ?r5; ?r6; ?r7]
             ≫= _) ?w) = _ =>
      destruct (align_4_8 a b c d r0 r1 r2 r3 r4 r5 r6 r7 w)
        as (f1' & f2' & E & _ & _)
  end.
  rewrite (bind_run _ _ _ _ _ E). reflexivity.
Qed.

(** C1, on the code.  For a monitor trace of 2 samples and a response
    trace of 8, [whiteCalib] returns [(H, f)] with 5 values in [H] and 1
    in [f]: the aligned spectra have 1 and 5 bins, and the division
    broadcasts the one monitor bin. *)
Theorem returned_lengths_differ :
  ∃ H f,
    fst (whiteCalib 0 1 no_kwargs (two_traces (ramp 2 1) (ramp 8 1)))
    = Return (H, f)
    ∧ length H = 5 ∧ length f = 1.
Proof.
  rewrite (whiteCalib_run _ _ _ _ _ _ (lookup_monitor _ _) (lookup_response _ _)).
  rewrite (transfer_function_unfold _ _ _ _ _ axis_ramp_2_1 axis_ramp_8_1).
  pose proof (fft_length (data (ramp 2 1))) as Hm.
  pose proof (fft_length (data (ramp 8 1))) as Hr.
  change (length (data (ramp 2 1))) with 2 in Hm.
  change (length (data (ramp 8 1))) with 8 in Hr.
  destruct (fft (data (ramp 2 1))) as [|a mS]; [done|]. shape mS Hm.
  destruct (fft (data (ramp 8 1))) as [|r0 rS]; [done|]. shape rS Hr.
  match goal with
  | |- ∃ _ _, fst ((align ?f1 [?a; ?b] ?f2 [?r0; ?r1; ?r2; ?r3; ?r4; ?r5; ?r6; ?r7]
             ≫= _) ?w) = _ ∧ _ =>
      destruct (align_2_8 a b r0 r1 r2 r3 r4 r5 r6 r7 w)
        as (f1' & f2' & E & -> & _)
  end.
  rewrite (bind_run _ _ _ _ _ E).
  eexists _, _. split; [reflexivity|]. by rewrite smooth_length.
Qed.

End Evaluation.

Lemma align_no_mismatch f1 mS f2 rS w :
  mismatch f1 f2 = false → align f1 mS f2 rS w = (Return (f1, mS, f2, rS), w).
Proof. intros E. unfold align. by rewrite E. Qed.

Section Cancelling.
Context {L : SignalLib}.

(** C7, on the code.  Three samples at 1 Hz against three samples at
    2 Hz: the two axes differ at bins 1 and 2, the differences -1/3 and
    1/3 add up to 0, the test of line 50 finds no mismatch, and
    [whiteCalib] prints no warning, filters nothing and returns the
    monitor's axis whole. *)
Theorem cancelling_differences_not_reconciled :
  let f1 := [0%Qc; frac 1 3; frac (-1) 3] in
  let f2 := [0%Qc; frac 2 3; frac (-2) 3] in
  let m := ramp 3 1 in
  let r := ramp 3 2 in
  axis m = Return f1 ∧ axis r = Return f2
  ∧ f1 !! 1 ≠ f2 !! 1
  ∧ np_subtract f1 f2 = [0%Qc; frac (-1) 3; frac 1 3]
  ∧ mismatch f1 f2 = false
  ∧ whiteCalib 0 1 no_kwargs (two_traces m r)
    = (Return (smooth (zip_with cdiv (fft (data r)) (fft (data m))) 0, f1),
       World (after_copies m r (heap (two_traces m r))) []).
Proof.
  intros f1 f2 m r.
  assert (mismatch f1 f2 = false) as Hmis by by_compute.
  split_and!; [apply axis_ramp_3_1 | apply axis_ramp_3_2 | | by_compute | done |].
  { apply (bool_decide_eq_true_1 _). vm_compute. reflexivity. }
  rewrite (whiteCalib_run _ _ _ _ _ _ (lookup_monitor _ _) (lookup_response _ _)).
  rewrite (transfer_function_unfold _ _ _ _ _ axis_ramp_3_1 axis_ramp_3_2).
  rewrite (bind_run _ _ _ _ _ (align_no_mismatch _ _ _ _ _ Hmis)).
  unfold mbind, py_bind, lift, np_divide, ret.
  rewrite bool_decide_eq_true_2; [done|]. by rewrite !fft_length.
Qed.

End Cancelling.

(** * Further properties of the three functions *)

(** ** The aligner as a value *)

Lemma align_value f1 mS f2 rS w :
  align f1 mS f2 rS w
  = (aligned f1 mS f2 rS, World (heap w) (stdout w ++ align_lines f1 f2)).
Proof.
  unfold align, aligned, align_lines, reconcile.
  destruct (mismatch f1 f2).
  2:{ unfold ret. rewrite app_nil_r. by destruct w. }
  unfold mbind, py_bind, outcome_bind, print, lift, ret. cbn [heap stdout].
  repeat (case_match; simplify_eq; try done).
Qed.

(** ** Arrays *)

Lemma amax_fold_spec (a : Qc) (x : list Qc) :
  let r := foldl (λ m b, if bool_decide (m < b)%Qc then b else m) a x in
  (r = a ∨ r ∈ x) ∧ (a <= r)%Qc ∧ ∀ y, y ∈ x → (y <= r)%Qc.
Proof.
  revert a. induction x as [|b x IH]; intros a; cbn [foldl].
  { split_and!; [by left | apply Qcle_refl | by intros y ?%elem_of_nil]. }
  destruct (IH (if bool_decide (a < b)%Qc then b else a)) as (Hin & Hle & Hmax).
  case_bool_decide as Hab.
  - split_and!.
    + right. destruct Hin as [->|?]; [left | by right].
    + etrans; [by apply Qclt_le_weak | done].
    + intros y [->|?]%elem_of_cons; [done | by apply Hmax].
  - apply Qcnot_lt_le in Hab. split_and!.
    + destruct Hin as [->|?]; [by left | right; by right].
    + done.
    + intros y [->|?]%elem_of_cons; [by etrans | by apply Hmax].
Qed.

Lemma np_amax_spec x a :
  np_amax x = Return a → a ∈ x ∧ ∀ y, y ∈ x → (y <= a)%Qc.
Proof.
  destruct x as [|b x]; [done|]. unfold np_amax. intros [= <-].
  destruct (amax_fold_spec b x) as (Hin & Hle & Hmax). split.
  - destruct Hin as [->|?]; [left | by right].
  - intros y [->|?]%elem_of_cons; [done | by apply Hmax].
Qed.

Lemma np_amax_nonempty x : x ≠ [] → ∃ a, np_amax x = Return a.
Proof. destruct x; [done | eauto]. Qed.

Lemma np_amax_Raise x e : np_amax x = Raise e → e = ValueError ∧ x = [].
Proof. destruct x; [by intros [= <-] | done]. Qed.

Lemma np_amax_largest f a :
  np_amax (np_absolute f) = Return a → largest_magnitude f a.
Proof.
  unfold np_absolute. intros [Hin Hmax]%np_amax_spec. split.
  - apply list_elem_of_fmap in Hin as (y & -> & Hy). eauto.
  - intros y Hy. apply Hmax, list_elem_of_fmap. eauto.
Qed.

Lemma argbest_from_bound better best ibest i l :
  let r := argbest_from better best ibest i l in
  r = ibest ∨ i ≤ r < i + length l.
Proof.
  revert best ibest i. induction l as [|x l IH]; intros best ibest i;
    cbn [argbest_from length]; [by left|].
  destruct (better x best).
  - right. destruct (IH x i (S i)) as [->|?]; lia.
  - destruct (IH best ibest (S i)) as [->|?]; [by left | right; lia].
Qed.

Lemma np_argmax_lt x i : np_argmax x = Return i → i < length x.
Proof.
  destruct x as [|a x]; [done|]. unfold np_argmax. intros [= <-].
  cbn [length].
  destruct (argbest_from_bound (λ u v, bool_decide (v < u)%Qc) a 0 1 x) as [->|?]; lia.
Qed.

Lemma np_argmin_lt x i : np_argmin x = Return i → i < length x.
Proof.
  destruct x as [|a x]; [done|]. unfold np_argmin. intros [= <-].
  cbn [length].
  destruct (argbest_from_bound (λ u v, bool_decide (u < v)%Qc) a 0 1 x) as [->|?]; lia.
Qed.

Lemma np_delete_length {A} (x : list A) i :
  i < length x → ∃ l, np_delete x i = Return l ∧ S (length l) = length x.
Proof.
  intros Hi. unfold np_delete. rewrite bool_decide_eq_true_2 by done.
  eexists. split; [done|].
  rewrite length_delete by by apply lookup_lt_is_Some_2. lia.
Qed.

Lemma take_indices_length {A} (x : list A) idx l :
  take_indices x idx = Return l → length l = length idx.
Proof.
  revert l. induction idx as [|i idx IH]; intros l; cbn [take_indices].
  { by intros [= <-]. }
  intros (a & _ & (r & Hr & [= <-])%outcome_bind_Return_inv)%outcome_bind_Return_inv.
  cbn [length]. f_equal. by apply IH.
Qed.

Lemma take_indices_total {A} (x : list A) idx :
  Forall (λ i, i < length x) idx → ∃ l, take_indices x idx = Return l.
Proof.
  induction 1 as [|i idx Hi _ [l Hl]]; cbn [take_indices]; [eauto|].
  apply lookup_lt_is_Some_2 in Hi as [a Ha].
  unfold getitem. rewrite Ha. cbn [mbind outcome_bind]. rewrite Hl. eauto.
Qed.

Lemma np_where_bound mask : Forall (λ i, i < length mask) (np_where mask).
Proof.
  apply Forall_forall. intros i [_ Hi%elem_of_seq]%list_elem_of_filter. lia.
Qed.

Lemma below_bound fmax f : Forall (λ i, i < length f) (below fmax f).
Proof.
  unfold below. pose proof (np_where_bound
    (map (λ x, bool_decide (x < fmax)%Qc) (np_absolute f))) as H.
  unfold np_absolute in H. by rewrite !length_map in H.
Qed.

(** The array cut out by [below fmax f], in lock-step on an array of the
    length of [f]. *)
Lemma take_below {A} fmax f (x : list A) :
  length x = length f →
  ∃ l, take_indices x (below fmax f) = Return l
     ∧ length l = length (below fmax f).
Proof.
  intros Hlen. destruct (take_indices_total x (below fmax f)) as [l Hl].
  { rewrite Hlen. apply below_bound. }
  exists l. split; [done | by eapply take_indices_length].
Qed.

(** Every bin kept by the filter is below [fmax] in magnitude. *)
Lemma take_indices_elem {A} (P : nat → Prop) `{∀ i, Decision (P i)}
    (x : list A) n i l a :
  take_indices x (filter P (seq i n)) = Return l → a ∈ l →
  ∃ j, P j ∧ x !! j = Some a.
Proof.
  revert i l. induction n as [|n IH]; intros i l; cbn [seq].
  { intros [= <-] ?%elem_of_nil. done. }
  rewrite filter_cons. case_decide; [|by apply IH].
  cbn [take_indices]. intros (b & Hb & (r & Hr & [= <-])%outcome_bind_Return_inv)
    %outcome_bind_Return_inv.
  unfold getitem in Hb. destruct (x !! i) as [b'|] eqn:Hi; [|done].
  injection Hb as ->. intros [->|Ha]%elem_of_cons; [eauto | by eapply IH].
Qed.

Lemma take_below_elem fmax f l a :
  take_indices f (below fmax f) = Return l → a ∈ l →
  (Qcabs.Qcabs a < fmax)%Qc.
Proof.
  unfold below, np_where. intros Hl Ha.
  destruct (take_indices_elem _ _ _ _ _ _ Hl Ha) as (j & Hj & Hfj).
  unfold np_absolute in Hj. rewrite !list_lookup_fmap, Hfj in Hj.
  cbn in Hj. injection Hj as Hj. by apply bool_decide_eq_true_1 in Hj.
Qed.

(** The two deletions of lines 61 to 66: two bins go, in lock-step, and
    the only failure is the [ValueError] of [argmin] when one bin was
    there. *)
Lemma trim_ends_lockstep f S :
  length S = length f → f ≠ [] →
  (∃ f' S', trim_ends f S = Return (f', S')
          ∧ length f = 2 + length f' ∧ length S' = length f')
  ∨ (trim_ends f S = Raise ValueError ∧ length f = 1).
Proof.
  intros Hlen Hne. unfold trim_ends.
  destruct (np_argmax f) as [i|e] eqn:Hi; [|by destruct f].
  apply np_argmax_lt in Hi. cbn [mbind outcome_bind].
  destruct (np_delete_length f i Hi) as (f1 & -> & Hf1).
  destruct (np_delete_length S i) as (S1 & -> & HS1); [lia|].
  cbn [mbind outcome_bind].
  destruct (np_argmin f1) as [j|e] eqn:Hj.
  - left. apply np_argmin_lt in Hj. cbn [mbind outcome_bind].
    destruct (np_delete_length f1 j Hj) as (f2 & -> & Hf2).
    destruct (np_delete_length S1 j) as (S2 & -> & HS2); [lia|].
    cbn [mbind outcome_bind]. eexists _, _. split; [done|]. lia.
  - right. destruct f1; [|done]. injection Hj as <-.
    split; [done|]. cbn [length] in Hf1. lia.
Qed.

(** ** What the aligner keeps *)

Lemma np_where_count_from (pre mask : list bool) :
  length (filter (λ i, (pre ++ mask) !! i = Some true)
                 (seq (length pre) (length mask)))
  = length (filter (λ b, b = true) mask).
Proof.
  revert pre. induction mask as [|b mask IH]; intros pre; [done|].
  cbn [length seq]. rewrite !filter_cons.
  specialize (IH (pre ++ [b])).
  rewrite <- app_assoc, length_app in IH. cbn [app length] in IH.
  replace (length pre + 1) with (S (length pre)) in IH by lia.
  rewrite (list_lookup_middle pre mask b (length pre) eq_refl).
  destruct b.
  - rewrite !decide_True by done. cbn [length]. by rewrite IH.
  - rewrite !decide_False by done. done.
Qed.

Lemma below_count fmax f :
  length (below fmax f)
  = length (filter (λ x, (Qcabs.Qcabs x < fmax)%Qc) f).
Proof.
  unfold below, np_where.
  pose proof (np_where_count_from []
    (map (λ x, bool_decide (x < fmax)%Qc) (np_absolute f))) as E.
  cbn [app length] in E. rewrite E. clear E. unfold np_absolute.
  induction f as [|x f IH]; [done|]. cbn [map]. rewrite !filter_cons.
  case_bool_decide.
  - rewrite !decide_True by done. cbn [length]. by rewrite IH.
  - rewrite decide_False by done. by rewrite decide_False.
Qed.

Lemma largest_magnitude_unique f a b :
  largest_magnitude f a → largest_magnitude f b → a = b.
Proof.
  intros [(y & Hy & ->) Ha] [(z & Hz & ->) Hb].
  apply Qcle_antisym; [by apply Hb | by apply Ha].
Qed.

Lemma largest_magnitude_amax f a :
  largest_magnitude f a → np_amax (np_absolute f) = Return a.
Proof.
  intros Ha. destruct (np_amax (np_absolute f)) as [b|e] eqn:E.
  - f_equal. apply np_amax_largest in E. by eapply largest_magnitude_unique.
  - apply np_amax_Raise in E as [_ E]. destruct Ha as [(y & Hy & _) _].
    destruct f; [by apply elem_of_nil in Hy | done].
Qed.

(** The filter of lines 53 to 58, then the branch on the two lengths. *)
Lemma reconcile_eval f1 mS f2 rS a1 a2 :
  largest_magnitude f1 a1 → largest_magnitude f2 a2 →
  length mS = length f1 → length rS = length f2 →
  let fmax := np_minimum a1 a2 in
  ∃ g1 T1 g2 T2,
    take_indices f1 (below fmax f1) = Return g1
    ∧ take_indices f2 (below fmax f2) = Return g2
    ∧ length g1 = length (below fmax f1) ∧ length T1 = length g1
    ∧ length g2 = length (below fmax f2) ∧ length T2 = length g2
    ∧ T1 `sublist_of` mS ∧ T2 `sublist_of` rS
    ∧ reconcile f1 mS f2 rS
      = if bool_decide (length g2 < length g1) then
          '(f1', mS') ← trim_ends g1 T1; Return (f1', mS', g2, T2)
        else if bool_decide (length g1 < length g2) then
          '(f2', rS') ← trim_ends g2 T2; Return (g1, T1, f2', rS')
        else Return (g1, T1, g2, T2).
Proof.
  intros H1%largest_magnitude_amax H2%largest_magnitude_amax Hm Hr fmax.
  destruct (take_below fmax f1 f1 eq_refl) as (g1 & Hg1 & Lg1).
  destruct (take_below fmax f1 mS Hm) as (T1 & HT1 & LT1).
  destruct (take_below fmax f2 f2 eq_refl) as (g2 & Hg2 & Lg2).
  destruct (take_below fmax f2 rS Hr) as (T2 & HT2 & LT2).
  exists g1, T1, g2, T2. split_and!; try done; try lia.
  - by eapply np_where_sublist.
  - by eapply np_where_sublist.
  - unfold reconcile. rewrite H1, H2. cbn [mbind outcome_bind].
    fold fmax. rewrite Hg1, HT1. cbn [mbind outcome_bind].
    by rewrite Hg2, HT2.
Qed.


Section Reconciliation.
Context {L : SignalLib}.

Lemma transfer_function_value m r kwargs f1 f2 w :
  axis m = Return f1 → axis r = Return f2 →
  transfer_function m r kwargs w
  = (transfer_value kwargs f1 (fft (data m)) f2 (fft (data r)),
     World (heap w) (stdout w ++ align_lines f1 f2)).
Proof.
  intros Hf1 Hf2. rewrite (transfer_function_unfold _ _ _ _ _ Hf1 Hf2).
  unfold mbind at 1, py_bind at 1. rewrite align_value. unfold transfer_value.
  destruct (aligned _ _ _ _) as [[[[g1 T1] g2] T2]|e]; [|done].
  unfold mbind, py_bind, outcome_bind, lift, ret.
  destruct (np_divide T2 T1) as [H|e]; [|done].
  by destruct (obspy_smooth H _).
Qed.

Lemma whiteCalib_value w ml rl m r kwargs f1 f2 :
  heap w !! ml = Some m → heap w !! rl = Some r →
  axis m = Return f1 → axis r = Return f2 →
  whiteCalib ml rl kwargs w
  = (transfer_value kwargs f1 (fft (data m)) f2 (fft (data r)),
     World (after_copies m r (heap w)) (stdout w ++ align_lines f1 f2)).
Proof.
  intros Hm Hr Hf1 Hf2. rewrite (whiteCalib_run _ _ _ _ _ _ Hm Hr).
  by rewrite (transfer_function_value _ _ _ _ _ _ Hf1 Hf2).
Qed.

End Reconciliation.

(** X13.  The trimming of lines 60 to 73, for every pair of axes.  On the
    mismatch path, with [k1] and [k2] the numbers of bins of the two axes
    below [fmax] in magnitude, the aligner takes two bins off the side
    that has more of them and none off the other, once; each spectrum
    keeps the length of its axis.  It raises only when one side has one
    bin below [fmax] and the other none. *)
Theorem align_takes_two_bins_once f1 mS f2 rS w a1 a2 :
  mismatch f1 f2 = true →
  length mS = length f1 → length rS = length f2 →
  largest_magnitude f1 a1 → largest_magnitude f2 a2 →
  let fmax := np_minimum a1 a2 in
  let k1 := length (filter (λ x, (Qcabs.Qcabs x < fmax)%Qc) f1) in
  let k2 := length (filter (λ x, (Qcabs.Qcabs x < fmax)%Qc) f2) in
  (∃ f1' mS' f2' rS',
     fst (align f1 mS f2 rS w) = Return (f1', mS', f2', rS')
     ∧ length mS' = length f1' ∧ length rS' = length f2'
     ∧ length f1' = (if bool_decide (k2 < k1) then k1 - 2 else k1)
     ∧ length f2' = (if bool_decide (k1 < k2) then k2 - 2 else k2))
  ∨ (fst (align f1 mS f2 rS w) = Raise ValueError
     ∧ (k1 = 1 ∧ k2 = 0 ∨ k1 = 0 ∧ k2 = 1)).
Proof.
  intros Hmis Hm Hr H1 H2 fmax k1 k2.
  rewrite align_value. cbn [fst]. unfold aligned. rewrite Hmis.
  destruct (reconcile_eval f1 mS f2 rS a1 a2 H1 H2 Hm Hr)
    as (g1 & T1 & g2 & T2 & _ & _ & Lg1 & LT1 & Lg2 & LT2 & _ & _ & ->).
  fold fmax in Lg1, Lg2. rewrite below_count in Lg1, Lg2.
  fold k1 in Lg1. fold k2 in Lg2. rewrite Lg1, Lg2.
  destruct (decide (k2 < k1)) as [Hlt|Hge].
  - rewrite (bool_decide_eq_true_2 _ Hlt).
    rewrite (bool_decide_eq_false_2 (k1 < k2)) by lia.
    destruct (trim_ends_lockstep g1 T1 LT1) as [(f' & S' & -> & Hf & HS)|[-> Hone]].
    { intros ->. cbn [length] in Lg1. lia. }
    + left. exists f', S', g2, T2. cbn [mbind outcome_bind]. split_and!; try done; lia.
    + right. split; [done|]. lia.
  - rewrite (bool_decide_eq_false_2 _ Hge).
    destruct (decide (k1 < k2)) as [Hlt|Hge2].
    + rewrite (bool_decide_eq_true_2 _ Hlt).
      destruct (trim_ends_lockstep g2 T2 LT2) as [(f' & S' & -> & Hf & HS)|[-> Hone]].
      { intros ->. cbn [length] in Lg2. lia. }
      * left. exists g1, T1, f', S'. cbn [mbind outcome_bind]. split_and!; try done; lia.
      * right. split; [done|]. lia.
    + rewrite (bool_decide_eq_false_2 _ Hge2).
      left. exists g1, T1, g2, T2. split_and!; try done; lia.
Qed.

Lemma reconcile_Return f1 mS f2 rS a1 a2 g1 T1 g2 T2 :
  largest_magnitude f1 a1 → largest_magnitude f2 a2 →
  length mS = length f1 → length rS = length f2 →
  reconcile f1 mS f2 rS = Return (g1, T1, g2, T2) →
  length T1 = length g1 ∧ length T2 = length g2
  ∧ Forall (λ x, (Qcabs.Qcabs x < np_minimum a1 a2)%Qc) g1
  ∧ Forall (λ x, (Qcabs.Qcabs x < np_minimum a1 a2)%Qc) g2.
Proof.
  intros H1 H2 Hm Hr.
  destruct (reconcile_eval f1 mS f2 rS a1 a2 H1 H2 Hm Hr)
    as (h1 & U1 & h2 & U2 & Hh1 & Hh2 & _ & LU1 & _ & LU2 & _ & _ & ->).
  assert (Forall (λ x, (Qcabs.Qcabs x < np_minimum a1 a2)%Qc) h1) as B1.
  { apply Forall_forall. intros x Hx. exact (take_below_elem _ _ _ _ Hh1 Hx). }
  assert (Forall (λ x, (Qcabs.Qcabs x < np_minimum a1 a2)%Qc) h2) as B2.
  { apply Forall_forall. intros x Hx. exact (take_below_elem _ _ _ _ Hh2 Hx). }
  repeat case_bool_decide.
  - intros (p & Hp & E)%outcome_bind_Return_inv. destruct p as [f' S'].
    injection E as <- <- <- <-.
    destruct (trim_ends_lockstep h1 U1 LU1) as [(f'' & S'' & E' & _ & HS)|[E' _]];
      [intros ->; cbn [length] in *; lia | | congruence].
    rewrite Hp in E'. injection E' as <- <-.
    apply trim_ends_sublist in Hp as [Hsub _]. split_and!; try done.
    rewrite Forall_forall in B1. apply Forall_forall. intros x Hx.
    apply B1. by eapply elem_of_sublist.
  - intros (p & Hp & E)%outcome_bind_Return_inv. destruct p as [f' S'].
    injection E as <- <- <- <-.
    destruct (trim_ends_lockstep h2 U2 LU2) as [(f'' & S'' & E' & _ & HS)|[E' _]];
      [intros ->; cbn [length] in *; lia | | congruence].
    rewrite Hp in E'. injection E' as <- <-.
    apply trim_ends_sublist in Hp as [Hsub _]. split_and!; try done.
    rewrite Forall_forall in B2. apply Forall_forall. intros x Hx.
    apply B2. by eapply elem_of_sublist.
  - intros [= <- <- <- <-]. done.
Qed.

Lemma reconcile_Raise f1 mS f2 rS e :
  length mS = length f1 → length rS = length f2 →
  reconcile f1 mS f2 rS = Raise e → e = ValueError.
Proof.
  intros Hm Hr.
  destruct (np_amax (np_absolute f1)) as [a1|e1] eqn:E1.
  2:{ unfold reconcile. rewrite E1. apply np_amax_Raise in E1 as [-> _].
      by intros [= <-]. }
  destruct (np_amax (np_absolute f2)) as [a2|e2] eqn:E2.
  2:{ unfold reconcile. rewrite E1, E2. apply np_amax_Raise in E2 as [-> _].
      by intros [= <-]. }
  apply np_amax_largest in E1, E2.
  destruct (reconcile_eval f1 mS f2 rS a1 a2 E1 E2 Hm Hr)
    as (h1 & U1 & h2 & U2 & _ & _ & _ & LU1 & _ & LU2 & _ & _ & ->).
  repeat case_bool_decide; [| |done].
  - destruct (trim_ends_lockstep h1 U1 LU1) as [(f'' & S'' & -> & _)|[-> _]];
      [intros ->; cbn [length] in *; lia | done | by intros [= <-]].
  - destruct (trim_ends_lockstep h2 U2 LU2) as [(f'' & S'' & -> & _)|[-> _]];
      [intros ->; cbn [length] in *; lia | done | by intros [= <-]].
Qed.

Lemma np_divide_length x y H :
  np_divide x y = Return H → length H = length y ∨ length y = 1.
Proof.
  unfold np_divide. case_bool_decide as E.
  - intros [= <-]. left. rewrite length_zip_with. lia.
  - destruct x as [|a [|a' x]], y as [|b [|b' y]]; try done;
      intros [= <-]; cbn [length map]; try (by right); left;
      by rewrite ?length_map.
Qed.

Lemma np_divide_Raise x y e : np_divide x y = Raise e → e = ValueError.
Proof.
  unfold np_divide. case_bool_decide; [done|].
  destruct x as [|a [|a' x]], y as [|b [|b' y]]; try done; by intros [= <-].
Qed.

Lemma axis_nonempty t f : axis t = Return f → f ≠ [].
Proof.
  intros (Hd & Hlen & _)%axis_inv ->. destruct (data t); [done|]. done.
Qed.

Section Outcomes.
Context {L : SignalLib}.

Lemma transfer_value_length kwargs m r f1 f2 H f :
  axis m = Return f1 → axis r = Return f2 →
  transfer_value kwargs f1 (fft (data m)) f2 (fft (data r)) = Return (H, f) →
  length H = length f ∨ length f = 1.
Proof.
  intros Hf1 Hf2. pose proof (axis_nonempty _ _ Hf1) as N1.
  pose proof (axis_nonempty _ _ Hf2) as N2.
  apply axis_inv in Hf1 as (_ & L1 & _). apply axis_inv in Hf2 as (_ & L2 & _).
  unfold transfer_value.
  intros (p & Hp & E)%outcome_bind_Return_inv.
  destruct p as [[[g1 T1] g2] T2].
  apply outcome_bind_Return_inv in E as (H0 & HH0 & E).
  apply outcome_bind_Return_inv in E as (H1 & HH1 & E). injection E as <- <-.
  unfold obspy_smooth in HH1. case_bool_decide; [done|]. injection HH1 as <-.
  rewrite smooth_length.
  assert (length T1 = length g1) as <-; [|by apply np_divide_length in HH0].
  unfold aligned in Hp. destruct (mismatch f1 f2).
  - destruct (np_amax_nonempty (np_absolute f1)) as [a1 A1];
      [by destruct f1|].
    destruct (np_amax_nonempty (np_absolute f2)) as [a2 A2];
      [by destruct f2|].
    apply np_amax_largest in A1, A2.
    assert (length (fft (data m)) = length f1) as Em
      by (rewrite fft_length; congruence).
    assert (length (fft (data r)) = length f2) as Er
      by (rewrite fft_length; congruence).
    by destruct (reconcile_Return _ _ _ _ _ _ _ _ _ _ A1 A2 Em Er Hp) as [? _].
  - injection Hp as <- <- <- <-. rewrite fft_length. congruence.
Qed.

Lemma obspy_smooth_Raise_inv x n e :
  obspy_smooth x n = Raise e →
  e = IndexError ∧ (0 < n)%Z ∧ (Z.of_nat (length x) ≤ n)%Z.
Proof.
  unfold obspy_smooth. case_bool_decide as Hn; [|done]. by intros [= <-].
Qed.

(** What the value part raises: [ValueError] from the alignment or the
    division, or [IndexError] from a smoothing window given by the
    caller that is not shorter than the quotient. *)
Lemma transfer_value_Raise kwargs m r f1 f2 e :
  axis m = Return f1 → axis r = Return f2 →
  transfer_value kwargs f1 (fft (data m)) f2 (fft (data r)) = Raise e →
  e = ValueError
  ∨ e = IndexError ∧ ∃ s, kw_smooth kwargs = Some s ∧ (0 < s)%Z.
Proof.
  intros Hf1 Hf2 E.
  assert (∀ (H : list complex) g1,
            length H = length g1 ∨ length g1 = 1 →
            obspy_smooth H (smooth_window kwargs g1) = Raise e →
            e = IndexError ∧ ∃ s, kw_smooth kwargs = Some s ∧ (0 < s)%Z) as S.
  { intros H g1 Hl (-> & Hpos & Hle)%obspy_smooth_Raise_inv. split; [done|].
    unfold smooth_window in *. destruct (kw_smooth kwargs) as [s|]; [by eexists|].
    exfalso.
    pose proof (Z.div_mod (Z.of_nat (length g1)) 10000 ltac:(lia)).
    pose proof (Z.mod_pos_bound (Z.of_nat (length g1)) 10000 ltac:(lia)).
    destruct Hl as [Hl|Hl]; rewrite Hl in *; lia. }
  revert E. unfold transfer_value.
  destruct (aligned f1 (fft (data m)) f2 (fft (data r)))
    as [[[[g1 T1] g2] T2]|e'] eqn:A; cbn [mbind outcome_bind].
  - destruct (np_divide T2 T1) as [H|e'] eqn:D; cbn [mbind outcome_bind].
    + destruct (obspy_smooth H (smooth_window kwargs g1)) as [Hs|e'] eqn:O; [done|].
      intros [= ->]. right.
      assert (transfer_value (only_smooth 0) f1 (fft (data m)) f2 (fft (data r))
              = Return (smooth H 0, g1)) as V0.
      { unfold transfer_value. rewrite A. cbn [mbind outcome_bind]. rewrite D.
        cbn [mbind outcome_bind]. unfold obspy_smooth, smooth_window. cbn.
        by rewrite bool_decide_eq_false_2 by lia. }
      pose proof (transfer_value_length _ _ _ _ _ _ _ Hf1 Hf2 V0) as Hl.
      rewrite smooth_length in Hl.
      exact (S H g1 Hl O).
    + intros [= ->]. left. by eapply np_divide_Raise.
  - intros [= ->]. left. apply axis_inv in Hf1 as (_ & L1 & _).
    apply axis_inv in Hf2 as (_ & L2 & _).
    unfold aligned in A. destruct (mismatch f1 f2); [|done].
    eapply reconcile_Raise; [| | exact A]; rewrite fft_length; congruence.
Qed.

End Outcomes.

(** ** The failures of whiteCalib *)

Lemma of_nat_nonzero n : n ≠ 0 → of_nat n ≠ 0%Qc.
Proof.
  intros Hn E. unfold of_nat, of_Z in E.
  apply Q2Qc_eq_iff in E. unfold Qeq in E. cbn in E. lia.
Qed.

Lemma reciprocal_nonzero (x : Qc) : x ≠ 0%Qc → (1 / x)%Qc ≠ 0%Qc.
Proof.
  intros Hx E. pose proof (Qcmult_inv_r x Hx) as I.
  unfold Qcdiv in E. rewrite Qcmult_1_l in E. rewrite E, Qcmult_0_r in I.
  discriminate.
Qed.

Lemma truediv_zero a b : b = 0%Qc → truediv a b = Raise ZeroDivisionError.
Proof. intros ->. reflexivity. Qed.

Lemma axis_total t :
  data t ≠ [] → sampling_rate t ≠ 0%Qc → ∃ f, axis t = Return f.
Proof.
  intros Hd Hs. unfold axis, truediv.
  rewrite bool_decide_eq_false_2 by done. cbn [mbind outcome_bind].
  unfold np_fftfreq. rewrite bool_decide_eq_false_2; [eauto|].
  intros [E|E]%Qcmult_integral.
  - apply of_nat_nonzero in E; [done|]. by destruct (data t).
  - by apply reciprocal_nonzero in E.
Qed.

Section Failures.
Context {L : SignalLib}.

Lemma transfer_function_no_samples m r kwargs w :
  data m = [] ∨ data r = [] →
  transfer_function m r kwargs w = (Raise ValueError, w).
Proof.
  intros Hd. unfold transfer_function, np_fft.
  destruct (data m) as [|x dm]; [done|].
  destruct Hd as [? | ->]; done.
Qed.

Lemma transfer_function_zero_rate m r kwargs w :
  data m ≠ [] → data r ≠ [] →
  sampling_rate m = 0%Qc ∨ sampling_rate r = 0%Qc →
  transfer_function m r kwargs w = (Raise ZeroDivisionError, w).
Proof.
  intros Hm Hr Hs. unfold transfer_function.
  rewrite (np_fft_nonempty _ Hm), lift_bind; cbv beta.
  rewrite (np_fft_nonempty _ Hr), lift_bind; cbv beta.
  rewrite !fft_length.
  destruct (decide (sampling_rate m = 0%Qc)) as [Z|NZ].
  { by rewrite (truediv_zero 1 _ Z). }
  destruct Hs as [?|Z]; [done|].
  destruct (axis_total m Hm NZ) as [f1 Hf1].
  apply axis_inv in Hf1 as (_ & _ & d1 & Hd1 & Hfq).
  rewrite Hd1, lift_bind; cbv beta. rewrite Hfq, lift_bind; cbv beta.
  by rewrite (truediv_zero 1 _ Z).
Qed.

(** X1.  On a monitor or a response trace with no sample, [whiteCalib]
    raises the [ValueError] of [np.fft.fft]; it prints nothing, and the
    store holds the two copies made at entry. *)
Theorem whiteCalib_no_samples w ml rl m r kwargs :
  heap w !! ml = Some m → heap w !! rl = Some r →
  data m = [] ∨ data r = [] →
  whiteCalib ml rl kwargs w
  = (Raise ValueError, World (after_copies m r (heap w)) (stdout w)).
Proof.
  intros Hm Hr Hd. rewrite (whiteCalib_run _ _ _ _ _ _ Hm Hr).
  by apply transfer_function_no_samples.
Qed.

(** X2.  On two traces with samples, one of them with sampling rate 0,
    [whiteCalib] raises the [ZeroDivisionError] of [1./sampling_rate]
    and prints nothing. *)
Theorem whiteCalib_zero_sampling_rate w ml rl m r kwargs :
  heap w !! ml = Some m → heap w !! rl = Some r →
  data m ≠ [] → data r ≠ [] →
  sampling_rate m = 0%Qc ∨ sampling_rate r = 0%Qc →
  whiteCalib ml rl kwargs w
  = (Raise ZeroDivisionError, World (after_copies m r (heap w)) (stdout w)).
Proof.
  intros Hm Hr Dm Dr Hs. rewrite (whiteCalib_run _ _ _ _ _ _ Hm Hr).
  by apply transfer_function_zero_rate.
Qed.

(** X3.  On two traces with samples and sampling rates that are not 0,
    [whiteCalib] returns, or raises [ValueError], or raises the
    [IndexError] of the smoothing, and this last only when the caller
    gives a positive [smooth]: the indexing and the deletions of the
    alignment stay within bounds, whatever the two lengths and rates,
    and the window that [whiteCalib] chooses itself is always shorter
    than the quotient. *)
Theorem whiteCalib_returns_or_value_error w ml rl m r kwargs :
  heap w !! ml = Some m → heap w !! rl = Some r →
  data m ≠ [] → data r ≠ [] →
  sampling_rate m ≠ 0%Qc → sampling_rate r ≠ 0%Qc →
  (∃ H f, fst (whiteCalib ml rl kwargs w) = Return (H, f))
  ∨ fst (whiteCalib ml rl kwargs w) = Raise ValueError
  ∨ (fst (whiteCalib ml rl kwargs w) = Raise IndexError
     ∧ ∃ s, kw_smooth kwargs = Some s ∧ (0 < s)%Z).
Proof.
  intros Hm Hr Dm Dr Sm Sr.
  destruct (axis_total m Dm Sm) as [f1 Hf1].
  destruct (axis_total r Dr Sr) as [f2 Hf2].
  rewrite (whiteCalib_value _ _ _ _ _ _ _ _ Hm Hr Hf1 Hf2). cbn [fst].
  destruct (transfer_value _ _ _ _ _) as [[H f]|e] eqn:E; [eauto|].
  right. destruct (transfer_value_Raise _ _ _ _ _ _ Hf1 Hf2 E) as [-> | [-> S]];
    [by left | by right].
Qed.

(** X4.  Whenever [whiteCalib] returns [(H, f)], [H] has as many values
    as [f], or [f] has one bin (and the division of line 76 broadcast
    it). *)
Theorem whiteCalib_lengths w ml rl m r kwargs H f :
  heap w !! ml = Some m → heap w !! rl = Some r →
  fst (whiteCalib ml rl kwargs w) = Return (H, f) →
  length H = length f ∨ length f = 1.
Proof.
  intros Hm Hr. rewrite (whiteCalib_run _ _ _ _ _ _ Hm Hr).
  destruct (transfer_function _ _ _ _) as [o w'] eqn:E. cbn [fst]. intros ->.
  destruct (transfer_function_axes _ _ _ _ _ _ _ E) as (f1 & f2 & Hf1 & Hf2).
  rewrite (transfer_function_value _ _ _ _ _ _ Hf1 Hf2) in E.
  injection E as E _. exact (transfer_value_length _ _ _ _ _ _ _ Hf1 Hf2 E).
Qed.

Lemma mismatch_lengths f1 f2 : length f1 ≠ length f2 → mismatch f1 f2 = true.
Proof.
  intros Hl. unfold mismatch. rewrite bool_decide_eq_false_2; [done | lia].
Qed.

Lemma transfer_function_output m r kwargs w :
  stdout (snd (transfer_function m r kwargs w))
  = stdout w ++ match axis m, axis r with
                | Return f1, Return f2 => align_lines f1 f2
                | _, _ => []
                end.
Proof.
  destruct (axis m) as [f1|e1] eqn:Hf1; [destruct (axis r) as [f2|e2] eqn:Hf2|].
  - by rewrite (transfer_function_value _ _ _ _ _ _ Hf1 Hf2).
  - rewrite app_nil_r.
    destruct (decide (data m = [])) as [?|Dm];
      [by rewrite transfer_function_no_samples by auto|].
    destruct (decide (data r = [])) as [?|Dr];
      [by rewrite transfer_function_no_samples by auto|].
    destruct (decide (sampling_rate r = 0%Qc)) as [?|Sr];
      [by rewrite transfer_function_zero_rate by auto|].
    destruct (axis_total r Dr Sr) as [f2 Hf2']. congruence.
  - rewrite app_nil_r.
    destruct (decide (data m = [])) as [?|Dm];
      [by rewrite transfer_function_no_samples by auto|].
    destruct (decide (data r = [])) as [?|Dr];
      [by rewrite transfer_function_no_samples by auto|].
    destruct (decide (sampling_rate m = 0%Qc)) as [?|Sm];
      [by rewrite transfer_function_zero_rate by auto|].
    destruct (axis_total m Dm Sm) as [f1 Hf1']. congruence.
Qed.

(** X5.  [whiteCalib] prints nothing or the mismatch warning, once, and
    nothing else.  It prints the warning when both traces have samples
    and sampling rates that are not 0 and the numbers of samples differ,
    also when it then raises; it prints nothing when the two traces have
    one number of samples and one sampling rate, and nothing when a trace
    has no sample or a sampling rate 0. *)
Theorem whiteCalib_output w ml rl m r kwargs :
  heap w !! ml = Some m → heap w !! rl = Some r →
  let out := stdout (snd (whiteCalib ml rl kwargs w)) in
  (out = stdout w ∨ out = stdout w ++ [mismatch_warning])
  ∧ (data m ≠ [] → data r ≠ [] →
     sampling_rate m ≠ 0%Qc → sampling_rate r ≠ 0%Qc →
     length (data m) ≠ length (data r) →
     out = stdout w ++ [mismatch_warning])
  ∧ (length (data m) = length (data r) → sampling_rate m = sampling_rate r →
     out = stdout w)
  ∧ (data m = [] ∨ data r = [] ∨ sampling_rate m = 0%Qc ∨ sampling_rate r = 0%Qc →
     out = stdout w).
Proof.
  intros Hm Hr out. unfold out. clear out.
  rewrite (whiteCalib_run _ _ _ _ _ _ Hm Hr), transfer_function_output.
  cbn [stdout]. split_and!.
  - destruct (axis m) as [f1|]; [destruct (axis r) as [f2|]|];
      rewrite ?app_nil_r; auto.
    unfold align_lines. destruct (mismatch f1 f2); rewrite ?app_nil_r; auto.
  - intros Dm Dr Sm Sr Hl.
    destruct (axis_total m Dm Sm) as [f1 Hf1].
    destruct (axis_total r Dr Sr) as [f2 Hf2]. rewrite Hf1, Hf2.
    apply axis_inv in Hf1 as (_ & L1 & _). apply axis_inv in Hf2 as (_ & L2 & _).
    unfold align_lines. rewrite mismatch_lengths; [done | congruence].
  - intros Hl Hs. unfold axis. rewrite <- Hl, <- Hs.
    destruct (axis m) as [f1|] eqn:Hf1; unfold axis in Hf1; rewrite Hf1;
      [|by rewrite app_nil_r].
    unfold align_lines. by rewrite mismatch_same, app_nil_r.
  - intros Hz.
    assert ((∃ e, axis m = Raise e) ∨ (∃ e, axis r = Raise e)) as [[e ->] | [e E]].
    { destruct (axis m) as [f1|e1] eqn:Hf1; [|eauto].
      destruct (axis r) as [f2|e2] eqn:Hf2; [|eauto]. exfalso.
      apply axis_inv in Hf1 as (D1 & _ & d1 & T1 & _).
      apply axis_inv in Hf2 as (D2 & _ & d2 & T2 & _).
      destruct Hz as [?|[?|[Z|Z]]]; [done | done | |].
      - by rewrite (truediv_zero 1 _ Z) in T1.
      - by rewrite (truediv_zero 1 _ Z) in T2. }
    + by rewrite app_nil_r.
    + rewrite E. destruct (axis m); by rewrite app_nil_r.
Qed.


End Failures.

(** ** The theorems at concrete inputs *)

Lemma slice_window_argmin H lo hi k :
  first_argmin (np_absolute (np_real (slice H lo hi))) k →
  window_argmin H lo hi (lo + k).
Proof.
  unfold np_absolute, np_real. intros (v & Hv & Hmin & Hfirst).
  rewrite !list_lookup_fmap, slice_lookup in Hv.
  case_decide; [|done]. destruct (H !! (lo + k)) as [z|] eqn:Hz; [|done].
  injection Hv as <-. split; [lia|]. exists z. split_and!; [done | |].
  - intros j u Hj Hu. apply (Hmin (j - lo)).
    rewrite !list_lookup_fmap, slice_lookup, decide_True by lia.
    replace (lo + (j - lo)) with j by lia. by rewrite Hu.
  - intros j u Hj Hu. apply (Hfirst (j - lo)); [lia|].
    rewrite !list_lookup_fmap, slice_lookup, decide_True by lia.
    replace (lo + (j - lo)) with j by lia. by rewrite Hu.
Qed.

Lemma closest_bin_compute {L : SignalLib} f x i :
  np_argmin (map (λ y, Qcabs.Qcabs (fsub y x)) f) = Return i → closest_bin f x i.
Proof. apply np_argmin_first. Qed.

(** ** crossCalib, for every set of options *)

Section Preparation.
Context {L : SignalLib}.

(** X7.  For every set of options, [crossCalib] first prepares its two
    copies: both are filtered if [ffilter] is given, the monitor first,
    then the monitor, and only the monitor, is deconvolved if
    [deconvolve] is set and [paz] is given; [paz] without [deconvolve]
    changes nothing.  When the filter and the deconvolution return,
    [crossCalib] has the outcome of [whiteCalib] called on the prepared
    traces, and prints the error line when [deconvolve] is set without
    [paz], then what that call prints.  When one of them raises,
    [crossCalib] raises the same and prints nothing. *)
Theorem crossCalib_prepares_then_whiteCalib w ml rl m r kwargs :
  heap w !! ml = Some m → heap w !! rl = Some r →
  (∀ m' r' w' a b,
     prepared kwargs m r = Return (m', r') →
     heap w' !! a = Some m' → heap w' !! b = Some r' →
     fst (crossCalib ml rl kwargs w) = fst (whiteCalib a b (forwarded kwargs) w')
     ∧ ∃ out,
         stdout (snd (whiteCalib a b (forwarded kwargs) w')) = stdout w' ++ out
         ∧ stdout (snd (crossCalib ml rl kwargs w))
           = stdout w ++ crossCalib_lines kwargs ++ out)
  ∧ (∀ e, prepared kwargs m r = Raise e →
          fst (crossCalib ml rl kwargs w) = Raise e
          ∧ stdout (snd (crossCalib ml rl kwargs w)) = stdout w).
Proof.
  intros Hm Hr.
  pose proof (crossCalib_run _ _ _ _ _ kwargs Hm Hr) as R. split.
  - intros m' r' w' a b P Ha Hb. rewrite P in R. cbv zeta in R.
    destruct R as [E1 E2].
    rewrite (whiteCalib_pure _ _ _ _ _ _ Ha Hb), E1, E2. cbn [fst snd stdout].
    eauto.
  - intros e P. by rewrite P in R.
Qed.

Lemma whiteCalib_forwarded w ml rl kwargs :
  whiteCalib ml rl (forwarded kwargs) w = whiteCalib ml rl kwargs w.
Proof.
  unfold whiteCalib, transfer_function, smooth_window, forwarded.
  by destruct (kw_smooth kwargs).
Qed.

(** X8.  Without [ffilter] and without a [deconvolve] that is true,
    [crossCalib] returns or raises what [whiteCalib] does on the same
    two trace objects with the same options, and prints the same. *)
Theorem crossCalib_plain_is_whiteCalib w ml rl m r kwargs :
  heap w !! ml = Some m → heap w !! rl = Some r →
  kw_ffilter kwargs = None → kw_deconvolve kwargs ≠ Some true →
  fst (crossCalib ml rl kwargs w) = fst (whiteCalib ml rl kwargs w)
  ∧ stdout (snd (crossCalib ml rl kwargs w))
    = stdout (snd (whiteCalib ml rl kwargs w)).
Proof.
  intros Hm Hr Hf Hd.
  pose proof (crossCalib_run _ _ _ _ _ kwargs Hm Hr) as R.
  assert (prepared kwargs m r = Return (m, r)) as P.
  { unfold prepared, filtered. rewrite Hf. cbn [mbind outcome_bind].
    by destruct (kw_deconvolve kwargs) as [[|]|], (kw_paz kwargs). }
  rewrite P in R. cbv zeta in R. destruct R as [E1 E2].
  rewrite <- (whiteCalib_forwarded w ml rl kwargs).
  rewrite (whiteCalib_pure _ _ _ _ _ _ Hm Hr), E1, E2. cbn [fst snd stdout].
  assert (crossCalib_lines kwargs = []) as ->; [|done].
  unfold crossCalib_lines.
  by destruct (kw_deconvolve kwargs) as [[|]|], (kw_paz kwargs).
Qed.

(** X9.  A second call gives what the first gave: [whiteCalib] and
    [crossCalib], called again on the same two trace objects in the
    store that the first call left, return or raise the same. *)
Theorem calls_are_repeatable w ml rl m r kwargs :
  heap w !! ml = Some m → heap w !! rl = Some r →
  fst (whiteCalib ml rl kwargs (snd (whiteCalib ml rl kwargs w)))
  = fst (whiteCalib ml rl kwargs w)
  ∧ fst (crossCalib ml rl kwargs (snd (crossCalib ml rl kwargs w)))
    = fst (crossCalib ml rl kwargs w).
Proof.
  intros Hm Hr. split.
  - pose proof (preserves_whiteCalib (heap w) ml rl kwargs w (reflexivity _)) as F.
    pose proof (lookup_weaken _ _ _ _ Hm F) as Hm'.
    pose proof (lookup_weaken _ _ _ _ Hr F) as Hr'.
    by rewrite (whiteCalib_pure _ _ _ _ _ _ Hm' Hr'),
               (whiteCalib_pure _ _ _ _ _ _ Hm Hr).
  - pose proof (preserves_crossCalib (heap w) ml rl kwargs w (reflexivity _)) as F.
    pose proof (lookup_weaken _ _ _ _ Hm F) as Hm'.
    pose proof (lookup_weaken _ _ _ _ Hr F) as Hr'.
    pose proof (crossCalib_run _ _ _ _ _ kwargs Hm' Hr') as R'.
    pose proof (crossCalib_run _ _ _ _ _ kwargs Hm Hr) as R.
    destruct (prepared kwargs m r) as [[m' r']|e].
    + cbv zeta in R, R'. destruct R as [-> _]. by destruct R' as [-> _].
    + destruct R as [-> _]. by destruct R' as [-> _].
Qed.

End Preparation.

(** ** Hparameters at the edges *)

Section Edges.
Context {L : SignalLib}.

(** X10.  On an empty frequency axis [Hparameters] raises the
    [ValueError] of [argmin], whatever [H] and the options. *)
Theorem Hparameters_empty_axis H kwargs :
  Hparameters H [] kwargs = Raise ValueError.
Proof. unfold Hparameters. by destruct (kw_fnorm kwargs). Qed.

Lemma np_argmin_nonempty x : x ≠ [] → ∃ i, np_argmin x = Return i.
Proof. destruct x; [done | eauto]. Qed.

(** X11.  On [(H, f)] of one length, when the bin closest to [fmin] is
    before the bin closest to [fnorm] (closest by the differences as the
    code computes them), [Hparameters] returns a triple, whose damping
    can be [inf] or [nan]: the corner frequency is [f[indx]] for an index
    of the window [imin, inorm), the first where [|Re(H)|] is least. *)
Theorem Hparameters_returns H f kwargs inorm imin :
  length H = length f →
  closest_bin f (fnorm_of kwargs) inorm →
  closest_bin f (fmin_of kwargs) imin →
  imin < inorm →
  ∃ indx fc damping sens,
    window_argmin H imin inorm indx
    ∧ f !! indx = Some fc
    ∧ Hparameters H f kwargs = Return (fc, damping, sens).
Proof.
  intros Hlen Hn Hm Hlt.
  pose proof Hn as (v & Hv & _).
  apply lookup_lt_Some in Hv. rewrite length_map in Hv.
  destruct (np_argmin_nonempty (np_absolute (np_real (slice H imin inorm))))
    as [k Hk].
  { unfold np_absolute, np_real, slice. intros E%(f_equal length).
    rewrite !length_map, length_take, length_drop in E. cbn [length] in E. lia. }
  pose proof (slice_window_argmin _ _ _ _ (np_argmin_first _ _ Hk)) as Hw.
  destruct Hw as ([Hlo Hhi] & Hc & HHc & Hmin) eqn:Ew. clear Ew.
  destruct (lookup_lt_is_Some_2 H inorm) as [Hnorm HHn]; [lia|].
  destruct (lookup_lt_is_Some_2 f (imin + k)) as [fc Hfc]; [lia|].
  exists (imin + k), fc. eexists _, _. split_and!; [| done |].
  { split; [done|]. eauto. }
  unfold Hparameters.
  rewrite (inorm_closest _ _ _ Hn), (imin_closest _ _ _ Hm).
  cbn [mbind outcome_bind]. rewrite Hk. cbn [mbind outcome_bind].
  replace (k + imin) with (imin + k) by lia.
  unfold getitem, np_absolute_c. rewrite HHn. cbn [mbind outcome_bind].
  rewrite Hfc. cbn [mbind outcome_bind].
  by rewrite !list_lookup_fmap, HHc.
Qed.

(** X12.  When [H] has fewer values than [f], with the window starting
    inside [H] and the normalization bin outside it (the bins closest by
    the differences as the code computes them), [Hparameters] raises the
    [IndexError] of [H[inorm]]. *)
Theorem Hparameters_short_H H f kwargs inorm imin :
  closest_bin f (fnorm_of kwargs) inorm →
  closest_bin f (fmin_of kwargs) imin →
  imin < inorm → imin < length H → length H ≤ inorm →
  Hparameters H f kwargs = Raise IndexError.
Proof.
  intros Hn Hm Hlt Hin Hout.
  destruct (np_argmin_nonempty (np_absolute (np_real (slice H imin inorm))))
    as [k Hk].
  { unfold np_absolute, np_real, slice. intros E%(f_equal length).
    rewrite !length_map, length_take, length_drop in E. cbn [length] in E. lia. }
  unfold Hparameters.
  rewrite (inorm_closest _ _ _ Hn), (imin_closest _ _ _ Hm).
  cbn [mbind outcome_bind]. rewrite Hk. cbn [mbind outcome_bind].
  unfold getitem. by rewrite (lookup_ge_None_2 H inorm Hout).
Qed.

End Edges.

#[local] Existing Instance sample_lib.

Lemma identical_axes_witness :
  let m := ramp 4 1 in
  let f := [0%Qc; frac 1 4; frac (-1) 2; frac (-1) 4] in
  (∀ mS rS w', align f mS f rS w' = (Return (f, mS, f, rS), w'))
  ∧ snd (whiteCalib 0 1 no_kwargs (two_traces m m))
    = World (after_copies m m (heap (two_traces m m))) []
  ∧ fst (whiteCalib 0 1 no_kwargs (two_traces m m))
    = Return (smooth (zip_with cdiv (fft (data m)) (fft (data m))) 0, f)
  ∧ fst (whiteCalib 0 1 (only_smooth 4) (two_traces m m)) = Raise IndexError.
Proof.
  intros m f.
  destruct (identical_axes_no_reconciliation
              (two_traces m m) 0 1 m m no_kwargs f f
              (lookup_monitor m m) (lookup_response m m)
              axis_ramp_4_1 axis_ramp_4_1 eq_refl (λ i, eq_refl))
    as (A & B & C & _).
  destruct (identical_axes_no_reconciliation
              (two_traces m m) 0 1 m m (only_smooth 4) f f
              (lookup_monitor m m) (lookup_response m m)
              axis_ramp_4_1 axis_ramp_4_1 eq_refl (λ i, eq_refl))
    as (_ & _ & _ & D).
  split_and!; [exact A | exact B | |].
  - destruct C as (H & E & _ & V); [reflexivity|].
    rewrite E, V; [reflexivity|].
    apply (bool_decide_eq_true_1 _). vm_compute. reflexivity.
  - apply D; [reflexivity|]. cbn. lia.
Defined.


Lemma Hparameters_witness :
  let f := [0%Qc; frac 1 4; frac 1 2; frac 3 4; 1%Qc] in
  let H := [Complex (of_Z 3) 0; Complex (of_Z 2) 1; Complex 0 (of_Z 4);
            Complex 1 1; Complex (of_Z 3) (of_Z 4)] in
  ∃ fc Hc Hn Amp_indx,
    f !! 2 = Some fc ∧ H !! 2 = Some Hc ∧ H !! 4 = Some Hn
    ∧ Amp_indx = fdiv (cabs Hc) (cabs Hn)
    ∧ Hparameters H f no_kwargs
      = Return (fc, fdiv (Fin 1) (fmul (Fin 2) Amp_indx), cabs Hn).
Proof.
  intros f H.
  apply (Hparameters_returns_triple H f no_kwargs 4 0 2).
  - reflexivity.
  - apply closest_bin_compute. apply (bool_decide_eq_true_1 _). vm_compute. reflexivity.
  - apply closest_bin_compute. apply (bool_decide_eq_true_1 _). vm_compute. reflexivity.
  - apply (slice_window_argmin H 0 4 2), np_argmin_first.
    apply (bool_decide_eq_true_1 _). vm_compute. reflexivity.
Defined.

(** The triple of that transfer function, and the damping when a modulus
    is 0: [inf] for [|H[indx]| = 0], [nan] when [|H[inorm]| = 0] too. *)
Lemma Hparameters_triple_values :
  let f := [0%Qc; frac 1 4; frac 1 2; frac 3 4; 1%Qc] in
  Hparameters [Complex (of_Z 3) 0; Complex (of_Z 2) 1; Complex 0 (of_Z 4);
               Complex 1 1; Complex (of_Z 3) (of_Z 4)] f no_kwargs
  = Return (frac 1 2, Fin (frac 5 8), Fin (of_Z 5))
  ∧ Hparameters [Complex (of_Z 3) 0; Complex (of_Z 2) 1; Complex 0 0;
                 Complex 1 1; Complex (of_Z 3) (of_Z 4)] f no_kwargs
    = Return (frac 1 2, Inf, Fin (of_Z 5))
  ∧ Hparameters [Complex (of_Z 3) 0; Complex (of_Z 2) 1; Complex 0 0;
                 Complex 1 1; Complex 0 0] f no_kwargs
    = Return (frac 1 2, NaN, Fin 0).
Proof.
  cbv zeta. split_and!; apply (bool_decide_eq_true_1 _); vm_compute; reflexivity.
Qed.

Lemma empty_search_window_witness :
  let f := [0%Qc; frac (-1) 2] in
  let H := [Complex 1 0; Complex 1 1] in
  slice H 0 0 = [] ∧ Hparameters H f no_kwargs = Raise ValueError.
Proof.
  intros f H.
  apply (empty_search_window_raises H f no_kwargs 0 0).
  - apply closest_bin_compute. apply (bool_decide_eq_true_1 _). vm_compute. reflexivity.
  - apply closest_bin_compute. apply (bool_decide_eq_true_1 _). vm_compute. reflexivity.
  - lia.
Defined.

Lemma returned_axis_witness :
  ∃ f1, axis (ramp 4 1) = Return f1
      ∧ [0%Qc; frac 1 4; frac (-1) 4] `sublist_of` f1.
Proof.
  apply (returned_axis_is_monitor_axis
           (two_traces (ramp 4 1) (ramp 6 1)) 0 1 (ramp 4 1) (ramp 6 1) no_kwargs
           [Complex (frac 1 10) 0; Complex (frac (-1) 2) (frac (-1) 2);
            Complex (frac (-3) 2) (frac 3 2)]).
  - apply lookup_monitor.
  - apply lookup_response.
  - apply (bool_decide_eq_true_1 _). vm_compute. reflexivity.
Defined.

Lemma crossCalib_without_paz_witness :
  let kwargs := MkKwargs None (Some (frac 1 10)) (Some true) None None None None in
  let m := ramp 4 1 in
  let w := two_traces m m in
  let m' := MkTrace [frac (-3) 2; frac (-1) 2; frac 1 2; frac 3 2] 1 in
  let w' := two_traces m' m' in
  fst (crossCalib 0 1 kwargs w)
  = fst (whiteCalib 0 1 (forwarded kwargs) w')
  ∧ ∃ out,
      stdout (snd (whiteCalib 0 1 (forwarded kwargs) w'))
      = stdout w' ++ out
      ∧ stdout (snd (crossCalib 0 1 kwargs w))
        = stdout w ++ no_paz_error :: out.
Proof.
  intros kwargs m w m' w'.
  refine (proj1 (crossCalib_without_paz w 0 1 m m kwargs _ _ _ _)
                m' m' w' 0 1 _ _ _ _).
  - apply lookup_monitor.
  - apply lookup_response.
  - reflexivity.
  - reflexivity.
  - apply (bool_decide_eq_true_1 _). vm_compute. reflexivity.
  - apply (bool_decide_eq_true_1 _). vm_compute. reflexivity.
  - apply lookup_monitor.
  - apply lookup_response.
Defined.

(** Two calls with [deconvolve] set and no [paz] that raise.  A monitor
    trace with no sample: the error line is printed, then [whiteCalib]
    raises the [ValueError] of [np.fft.fft].  Four samples against eight
    at one sampling rate: the error line and the mismatch warning are
    printed, then the division of 5 bins by 3 raises [ValueError]. *)
Lemma crossCalib_without_paz_raises :
  let kwargs := MkKwargs None None (Some true) None None None None in
  let w := two_traces (MkTrace [] 1) (ramp 4 1) in
  let w' := two_traces (ramp 4 1) (ramp 8 1) in
  (fst (crossCalib 0 1 kwargs w) = Raise ValueError
   ∧ stdout (snd (crossCalib 0 1 kwargs w)) = [no_paz_error])
  ∧ (fst (crossCalib 0 1 kwargs w') = Raise ValueError
     ∧ stdout (snd (crossCalib 0 1 kwargs w')) = [no_paz_error; mismatch_warning]).
Proof.
  cbv zeta. split_and!; apply (bool_decide_eq_true_1 _); vm_compute; reflexivity.
Qed.

(** The copies, and only they, are filtered: after a call with [ffilter]
    the caller's two objects (0 and 1) hold their samples, and the objects
    2 and 3 made at entry hold the filtered ones. *)
Lemma crossCalib_filters_its_copies :
  let kwargs := MkKwargs None (Some (frac 1 10)) None None None None None in
  let m := ramp 4 1 in
  let r := ramp 4 1 in
  let h := heap (snd (crossCalib 0 1 kwargs (two_traces m r))) in
  h !! 0 = Some m ∧ h !! 1 = Some r
  ∧ Return <$> h !! 2 = Some (highpass (frac 1 10) m) ∧ h !! 2 ≠ Some m.
Proof.
  cbv zeta. split_and!; apply (bool_decide_eq_true_1 _); vm_compute; reflexivity.
Qed.

(** Four samples against six at one sampling rate: the axes are
    reconciled, and the axis returned holds 1/4, a bin of the monitor's
    axis that the response's axis does not have. *)
Lemma returned_axis_not_response_axis :
  ∃ H f f2,
    fst (whiteCalib 0 1 no_kwargs (two_traces (ramp 4 1) (ramp 6 1)))
    = Return (H, f)
    ∧ axis (ramp 6 1) = Return f2
    ∧ frac 1 4 ∈ f ∧ frac 1 4 ∉ f2.
Proof.
  exists [Complex (frac 1 10) 0; Complex (frac (-1) 2) (frac (-1) 2);
          Complex (frac (-3) 2) (frac 3 2)],
         [0%Qc; frac 1 4; frac (-1) 4],
         [0%Qc; frac 1 6; frac 1 3; frac (-1) 2; frac (-1) 3; frac (-1) 6].
  split_and!; apply (bool_decide_eq_true_1 _); vm_compute; reflexivity.
Qed.

(** ** The further properties at concrete inputs *)

Lemma largest_magnitude_compute f a :
  np_amax (np_absolute f) = Return a → largest_magnitude f a.
Proof. apply np_amax_largest. Qed.

Lemma align_takes_two_bins_once_witness :
  let f1 := [0%Qc; frac 1 4; frac (-1) 2; frac (-1) 4] in
  let f2 := [0%Qc; frac 1 6; frac 1 3; frac (-1) 2; frac (-1) 3; frac (-1) 6] in
  let mS := [Complex 1 0; Complex 0 1; Complex 1 1; Complex 0 1] in
  let rS := [Complex 1 0; Complex 0 1; Complex 1 1;
             Complex 1 0; Complex 0 1; Complex 1 1] in
  let fmax := np_minimum (frac 1 2) (frac 1 2) in
  let k1 := length (filter (λ x, (Qcabs.Qcabs x < fmax)%Qc) f1) in
  let k2 := length (filter (λ x, (Qcabs.Qcabs x < fmax)%Qc) f2) in
  (∃ f1' mS' f2' rS',
     fst (align f1 mS f2 rS empty_world) = Return (f1', mS', f2', rS')
     ∧ length mS' = length f1' ∧ length rS' = length f2'
     ∧ length f1' = (if bool_decide (k2 < k1) then k1 - 2 else k1)
     ∧ length f2' = (if bool_decide (k1 < k2) then k2 - 2 else k2))
  ∨ (fst (align f1 mS f2 rS empty_world) = Raise ValueError
     ∧ (k1 = 1 ∧ k2 = 0 ∨ k1 = 0 ∧ k2 = 1)).
Proof.
  intros f1 f2 mS rS.
  apply (align_takes_two_bins_once f1 mS f2 rS empty_world (frac 1 2) (frac 1 2)).
  - apply (bool_decide_eq_true_1 _). vm_compute. reflexivity.
  - reflexivity.
  - reflexivity.
  - apply largest_magnitude_compute. apply (bool_decide_eq_true_1 _).
    vm_compute. reflexivity.
  - apply largest_magnitude_compute. apply (bool_decide_eq_true_1 _).
    vm_compute. reflexivity.
Defined.

Lemma whiteCalib_no_samples_witness :
  let m := MkTrace [] 1 in
  let r := ramp 4 1 in
  whiteCalib 0 1 no_kwargs (two_traces m r)
  = (Raise ValueError,
     World (after_copies m r (heap (two_traces m r))) (stdout (two_traces m r))).
Proof.
  intros m r.
  apply (whiteCalib_no_samples (two_traces m r) 0 1 m r no_kwargs).
  - apply lookup_monitor.
  - apply lookup_response.
  - left. reflexivity.
Defined.

Lemma whiteCalib_zero_sampling_rate_witness :
  let m := ramp 4 1 in
  let r := ramp 4 0 in
  whiteCalib 0 1 no_kwargs (two_traces m r)
  = (Raise ZeroDivisionError,
     World (after_copies m r (heap (two_traces m r))) (stdout (two_traces m r))).
Proof.
  intros m r.
  apply (whiteCalib_zero_sampling_rate (two_traces m r) 0 1 m r no_kwargs).
  - apply lookup_monitor.
  - apply lookup_response.
  - discriminate.
  - discriminate.
  - right. reflexivity.
Defined.

Lemma whiteCalib_returns_or_value_error_witness :
  let w := two_traces (ramp 4 1) (ramp 8 1) in
  (∃ H f, fst (whiteCalib 0 1 no_kwargs w) = Return (H, f))
  ∨ fst (whiteCalib 0 1 no_kwargs w) = Raise ValueError
  ∨ (fst (whiteCalib 0 1 no_kwargs w) = Raise IndexError
     ∧ ∃ s, kw_smooth no_kwargs = Some s ∧ (0 < s)%Z).
Proof.
  intros w.
  apply (whiteCalib_returns_or_value_error w 0 1 (ramp 4 1) (ramp 8 1) no_kwargs).
  - apply lookup_monitor.
  - apply lookup_response.
  - discriminate.
  - discriminate.
  - apply (bool_decide_eq_true_1 _). vm_compute. reflexivity.
  - apply (bool_decide_eq_true_1 _). vm_compute. reflexivity.
Defined.

Lemma whiteCalib_lengths_witness :
  let H := [Complex (frac 1 3) 0; Complex (frac 2 3) 0; Complex 1 0;
            Complex (frac 7 3) 0; Complex (frac 8 3) 0] in
  let f := [0%Qc] in
  length H = length f ∨ length f = 1.
Proof.
  intros H f.
  apply (whiteCalib_lengths (two_traces (ramp 2 1) (ramp 8 1)) 0 1
           (ramp 2 1) (ramp 8 1) no_kwargs H f).
  - apply lookup_monitor.
  - apply lookup_response.
  - apply (bool_decide_eq_true_1 _). vm_compute. reflexivity.
Defined.

Lemma whiteCalib_output_witness :
  let m := ramp 4 1 in
  let r := ramp 6 1 in
  stdout (snd (whiteCalib 0 1 no_kwargs (two_traces m r)))
  = stdout (two_traces m r) ++ [mismatch_warning].
Proof.
  intros m r.
  pose proof (whiteCalib_output (two_traces m r) 0 1 m r no_kwargs
                (lookup_monitor m r) (lookup_response m r)) as T.
  cbv zeta in T. destruct T as (_ & T & _). apply T.
  - discriminate.
  - discriminate.
  - apply (bool_decide_eq_true_1 _). vm_compute. reflexivity.
  - apply (bool_decide_eq_true_1 _). vm_compute. reflexivity.
  - cbn. lia.
Defined.


Lemma crossCalib_prepares_witness :
  let paz := MkPaz [] [] 1 (frac 2 1) in
  let kwargs := MkKwargs (Some 0%Z) (Some (frac 1 10)) (Some true) (Some paz)
                         None None None in
  let m := ramp 4 1 in
  let w := two_traces m m in
  let m' := MkTrace [frac (-3) 4; frac (-1) 4; frac 1 4; frac 3 4] 1 in
  let r' := MkTrace [frac (-3) 2; frac (-1) 2; frac 1 2; frac 3 2] 1 in
  let w' := two_traces m' r' in
  fst (crossCalib 0 1 kwargs w) = fst (whiteCalib 0 1 (forwarded kwargs) w')
  ∧ ∃ out,
      stdout (snd (whiteCalib 0 1 (forwarded kwargs) w')) = stdout w' ++ out
      ∧ stdout (snd (crossCalib 0 1 kwargs w))
        = stdout w ++ crossCalib_lines kwargs ++ out.
Proof.
  intros paz kwargs m w m' r' w'.
  refine (proj1 (crossCalib_prepares_then_whiteCalib w 0 1 m m kwargs _ _)
                m' r' w' 0 1 _ _ _).
  - apply lookup_monitor.
  - apply lookup_response.
  - apply (bool_decide_eq_true_1 _). vm_compute. reflexivity.
  - apply lookup_monitor.
  - apply lookup_response.
Defined.

(** A corner frequency at Nyquist: the filter raises, and so does
    [crossCalib], before anything is printed. *)
Lemma crossCalib_filter_raises :
  let kwargs := MkKwargs None (Some (frac 1 2)) (Some true) None None None None in
  let w := two_traces (ramp 4 1) (ramp 4 1) in
  fst (crossCalib 0 1 kwargs w) = Raise ValueError
  ∧ stdout (snd (crossCalib 0 1 kwargs w)) = [].
Proof.
  cbv zeta. split; apply (bool_decide_eq_true_1 _); vm_compute; reflexivity.
Qed.

Lemma crossCalib_plain_witness :
  let kwargs := MkKwargs (Some 0%Z) None (Some false) None None None None in
  let w := two_traces (ramp 4 1) (ramp 6 1) in
  fst (crossCalib 0 1 kwargs w) = fst (whiteCalib 0 1 kwargs w)
  ∧ stdout (snd (crossCalib 0 1 kwargs w))
    = stdout (snd (whiteCalib 0 1 kwargs w)).
Proof.
  intros kwargs w.
  apply (crossCalib_plain_is_whiteCalib w 0 1 (ramp 4 1) (ramp 6 1) kwargs).
  - apply lookup_monitor.
  - apply lookup_response.
  - reflexivity.
  - discriminate.
Defined.

Lemma calls_are_repeatable_witness :
  let kwargs := MkKwargs None (Some (frac 1 10)) None None None None None in
  let w := two_traces (ramp 4 1) (ramp 6 1) in
  fst (whiteCalib 0 1 kwargs (snd (whiteCalib 0 1 kwargs w)))
  = fst (whiteCalib 0 1 kwargs w)
  ∧ fst (crossCalib 0 1 kwargs (snd (crossCalib 0 1 kwargs w)))
    = fst (crossCalib 0 1 kwargs w).
Proof.
  intros kwargs w.
  apply (calls_are_repeatable w 0 1 (ramp 4 1) (ramp 6 1) kwargs).
  - apply lookup_monitor.
  - apply lookup_response.
Defined.

Lemma Hparameters_returns_witness :
  let f := [0%Qc; frac 1 4; frac 1 2; frac 3 4; 1%Qc] in
  let H := [Complex (of_Z 3) 0; Complex (of_Z 2) 1; Complex 0 (of_Z 4);
            Complex 1 1; Complex (of_Z 3) (of_Z 4)] in
  ∃ indx fc damping sens,
    window_argmin H 0 4 indx
    ∧ f !! indx = Some fc
    ∧ Hparameters H f no_kwargs = Return (fc, damping, sens).
Proof.
  intros f H.
  apply (Hparameters_returns H f no_kwargs 4 0).
  - reflexivity.
  - apply closest_bin_compute. apply (bool_decide_eq_true_1 _). vm_compute. reflexivity.
  - apply closest_bin_compute. apply (bool_decide_eq_true_1 _). vm_compute. reflexivity.
  - lia.
Defined.

Lemma Hparameters_short_H_witness :
  let f := [0%Qc; frac 1 4; frac 1 2; frac 3 4; 1%Qc] in
  let H := [Complex (of_Z 3) 0; Complex (of_Z 2) 1] in
  Hparameters H f no_kwargs = Raise IndexError.
Proof.
  intros f H.
  apply (Hparameters_short_H H f no_kwargs 4 0).
  - apply closest_bin_compute. apply (bool_decide_eq_true_1 _). vm_compute. reflexivity.
  - apply closest_bin_compute. apply (bool_decide_eq_true_1 _). vm_compute. reflexivity.
  - lia.
  - cbn. lia.
  - cbn. lia.
Defined.
